(** * The media catalog store of moyin-creator ([src/stores/media-store.ts])

    A shallow embedding of the store's data model, of the split/merge
    partitioner used by the per-project persistence, of the store actions
    and of what the store persists and fixes up when it is rehydrated
    ([partialize], [migrateMediaDataUrls], [onRehydrateStorage]), followed
    by the properties stated about them.

    Conventions of the embedding:
    - a JS [string] is a [string]; an optional or nullable string field is an
      [option string], [None] standing for both [undefined] and [null]
      (the store never tells them apart: it tests truthiness or compares
      with [===] against a string);
    - an optional boolean flag is a [bool], [false] standing for an absent
      flag (the store only tests truthiness of the flags);
    - arrays are lists, in array order;
    - [generateUUID ()] and [Date.now ()] are read from two oracles, with the
      number of calls made so far kept next to the store. *)

From Stdlib Require Import List String Bool Arith ZArith Lia.
From Stdlib Require Import Permutation Relation_Operators Wellfounded.
Import ListNotations.
Local Open Scope string_scope.
Local Open Scope list_scope.

Set Implicit Arguments.

(** ** JavaScript idioms used by the store *)

(** Truthiness of an optional string: [undefined], [null] and the empty
    string are falsy. *)
Definition truthy (o : option string) : bool :=
  match o with
  | Some s => negb (s =? "")
  | None => false
  end.

(** [o === s] for an optional string [o] and a string [s]. *)
Definition strictEq (o : option string) (s : string) : bool :=
  match o with
  | Some t => t =? s
  | None => false
  end.

(** [o === null]. *)
Definition isNull (o : option string) : bool :=
  match o with
  | Some _ => false
  | None => true
  end.

(** [o || ''] for an optional string. *)
Definition orEmpty (o : option string) : string :=
  match o with
  | Some s => s
  | None => ""
  end.

(** [a || b] on the results of two lookups. *)
Definition orElse {A} (a b : option A) : option A :=
  match a with
  | Some _ => a
  | None => b
  end.

(** [Array.prototype.includes] on an array of strings. *)
Definition includes (l : list string) (s : string) : bool :=
  existsb (fun t => t =? s) l.

(** [Array.prototype.findIndex]. *)
Fixpoint findIndex {A} (p : A -> bool) (l : list A) : option nat :=
  match l with
  | [] => None
  | x :: r => if p x then Some 0 else option_map S (findIndex p r)
  end.

(** [arr.splice (i, 1)]: the array without its element of index [i]. *)
Fixpoint splice1 {A} (i : nat) (l : list A) : list A :=
  match l, i with
  | [], _ => []
  | _ :: r, 0 => r
  | x :: r, S j => x :: splice1 j r
  end.

(** ** Data model ([@/types/media])

    The type declarations are imported by the store from [@/types/media];
    the fields are those the store reads and writes, typed as the data model
    describes them. *)

(** Modelled from the spec: [MediaType], [image|video|audio]. *)
Inductive MediaType := image | video | audio.

(** Modelled from the spec: the [source] of an item,
    [upload|ai-image|ai-video]. *)
Inductive MediaSource := upload | ai_image | ai_video.

(** Numeric payload (duration, width, height, creation time): carried by the
    store, never inspected by the operations modelled here. *)
Definition number := Z.

Module MediaFile.
(** Modelled from the spec: [MediaFile], the media item
    [{id, name, type, url, thumbnailUrl?, duration?, width?, height?,
      folderId, projectId, source, ephemeral?}], with the [file] the store
    keeps on it. *)
Record t := mk {
  id : string;
  name : string;
  type : MediaType;
  url : option string;
  thumbnailUrl : option string;
  duration : option number;
  width : option number;
  height : option number;
  source : option MediaSource;
  folderId : option string;
  projectId : option string;
  file : option string; (* an opaque handle on the File object *)
  ephemeral : bool
}.

(** [{ ...f, folderId }] *)
Definition with_folderId (v : option string) (f : t) : t :=
  mk (id f) (name f) (type f) (url f) (thumbnailUrl f) (duration f)
     (width f) (height f) (source f) v (projectId f) (file f) (ephemeral f).

(** [{ ...f, projectId }] *)
Definition with_projectId (v : option string) (f : t) : t :=
  mk (id f) (name f) (type f) (url f) (thumbnailUrl f) (duration f)
     (width f) (height f) (source f) (folderId f) v (file f) (ephemeral f).

(** [{ ...f, url }] *)
Definition with_url (v : option string) (f : t) : t :=
  mk (id f) (name f) (type f) v (thumbnailUrl f) (duration f)
     (width f) (height f) (source f) (folderId f) (projectId f) (file f)
     (ephemeral f).

(** [{ ...f, thumbnailUrl }] *)
Definition with_thumbnailUrl (v : option string) (f : t) : t :=
  mk (id f) (name f) (type f) (url f) v (duration f)
     (width f) (height f) (source f) (folderId f) (projectId f) (file f)
     (ephemeral f).
(** [{ ...f, name }] *)
Definition with_name (v : string) (f : t) : t :=
  mk (id f) v (type f) (url f) (thumbnailUrl f) (duration f)
     (width f) (height f) (source f) (folderId f) (projectId f) (file f)
     (ephemeral f).
End MediaFile.

Module MediaFolder.
(** Modelled from the spec: [MediaFolder], the folder
    [{id, name, parentId, projectId, isSystem, isAutoCreated, category?,
      createdAt}]; a [MediaFolderCategory] is kept as the string the store
    compares it with. *)
Record t := mk {
  id : string;
  name : string;
  parentId : option string;
  projectId : option string;
  isSystem : bool;
  isAutoCreated : bool;
  category : option string;
  createdAt : number
}.

(** [{ ...f, projectId }] *)
Definition with_projectId (v : option string) (f : t) : t :=
  mk (id f) (name f) (parentId f) v (isSystem f) (isAutoCreated f)
     (category f) (createdAt f).
(** [{ ...f, name }] *)
Definition with_name (v : string) (f : t) : t :=
  mk (id f) v (parentId f) (projectId f) (isSystem f) (isAutoCreated f)
     (category f) (createdAt f).
End MediaFolder.

(** [MediaPersistedState]: the persisted catalog. *)
Module Persisted.
Record t := mk {
  folders : list MediaFolder.t;
  mediaFiles : list MediaFile.t
}.
End Persisted.

(** ** Split/merge for the per-project storage *)

Definition isProjectFolder (pid : string) (f : MediaFolder.t) : bool :=
  strictEq (MediaFolder.projectId f) pid && negb (MediaFolder.isSystem f).

Definition isSharedFolder (f : MediaFolder.t) : bool :=
  MediaFolder.isSystem f
  || (negb (truthy (MediaFolder.projectId f))
      && negb (MediaFolder.isAutoCreated f)).

Definition isProjectFile (pid : string) (f : MediaFile.t) : bool :=
  strictEq (MediaFile.projectId f) pid.

Definition isSharedFile (f : MediaFile.t) : bool :=
  negb (truthy (MediaFile.projectId f)).

Record SplitResult := {
  projectData : Persisted.t;
  sharedData : Persisted.t
}.

Definition splitMediaData (state : Persisted.t) (pid : string) : SplitResult :=
  {| projectData :=
       Persisted.mk
         (filter (isProjectFolder pid) (Persisted.folders state))
         (filter (isProjectFile pid) (Persisted.mediaFiles state));
     sharedData :=
       Persisted.mk
         (filter isSharedFolder (Persisted.folders state))
         (filter isSharedFile (Persisted.mediaFiles state)) |}.

(** [sharedData?.folders ?? []] and the like. *)
Definition foldersOrEmpty (d : option Persisted.t) : list MediaFolder.t :=
  match d with
  | Some p => Persisted.folders p
  | None => []
  end.

Definition mediaFilesOrEmpty (d : option Persisted.t) : list MediaFile.t :=
  match d with
  | Some p => Persisted.mediaFiles p
  | None => []
  end.

Definition mergeMediaData (projectData sharedData : option Persisted.t)
  : Persisted.t :=
  Persisted.mk
    (foldersOrEmpty sharedData ++ foldersOrEmpty projectData)
    (mediaFilesOrEmpty sharedData ++ mediaFilesOrEmpty projectData).

(** Writing a catalog for project [pid] and reading it back. *)
Definition splitThenMerge (state : Persisted.t) (pid : string) : Persisted.t :=
  let parts := splitMediaData state pid in
  mergeMediaData (Some (projectData parts)) (Some (sharedData parts)).

(** ** System category definitions *)

Record CategoryDef := {
  cat_category : string;
  cat_name : string;
  cat_icon : string
}.

Definition SYSTEM_CATEGORIES : list CategoryDef :=
  [ {| cat_category := "ai-image"; cat_name := "AI图片"; cat_icon := "Sparkles" |};
    {| cat_category := "ai-video"; cat_name := "AI视频"; cat_icon := "Film" |};
    {| cat_category := "upload"; cat_name := "上传文件"; cat_icon := "CloudUpload" |} ].

(** ** The store *)

Module Store.
Record t := mk {
  mediaFiles : list MediaFile.t;
  folders : list MediaFolder.t;
  currentFolderId : option string;
  isLoading : bool
}.

(** The initial store. *)
Definition initial : t := mk [] [] None false.

(** [set ({ mediaFiles })] and its siblings: a partial update. *)
Definition set_mediaFiles (v : list MediaFile.t) (s : t) : t :=
  mk v (folders s) (currentFolderId s) (isLoading s).

Definition set_folders (v : list MediaFolder.t) (s : t) : t :=
  mk (mediaFiles s) v (currentFolderId s) (isLoading s).

Definition set_isLoading (v : bool) (s : t) : t :=
  mk (mediaFiles s) (folders s) (currentFolderId s) v.
End Store.

(** ** Runtime: the store with the two oracles' call counters *)

Record Runtime := {
  store : Store.t;
  uuidCalls : nat;   (* calls made to generateUUID () *)
  clockReads : nat   (* calls made to Date.now () *)
}.

(** The outcome of an awaited promise. *)
Inductive Settled (A : Type) :=
| Resolved (a : A)
| Rejected.
Arguments Rejected {A}.

Section Actions.

(** The [k]-th value returned by [generateUUID ()], by [Date.now ()]. *)
Variable uuidAt : nat -> string.
Variable nowAt : nat -> number.

(** Synchronous store actions: a state monad over [Runtime]. *)
Definition Action (A : Type) : Type := Runtime -> A * Runtime.

Definition ret {A} (a : A) : Action A := fun r => (a, r).

Definition bind {A B} (m : Action A) (k : A -> Action B) : Action B :=
  fun r => k (fst (m r)) (snd (m r)).

Notation "x <- m ;; k" := (bind m (fun x => k))
  (at level 61, m at next level, right associativity).
Notation "m ;;; k" := (bind m (fun _ => k))
  (at level 61, right associativity).

(** zustand's [get ()] and [set (updater)]. *)
Definition get : Action Store.t := fun r => (store r, r).

Definition set (upd : Store.t -> Store.t) : Action unit :=
  fun r => (tt, {| store := upd (store r);
                   uuidCalls := uuidCalls r;
                   clockReads := clockReads r |}).

Definition generateUUID : Action string :=
  fun r => (uuidAt (uuidCalls r),
            {| store := store r;
               uuidCalls := S (uuidCalls r);
               clockReads := clockReads r |}).

Definition dateNow : Action number :=
  fun r => (nowAt (clockReads r),
            {| store := store r;
               uuidCalls := uuidCalls r;
               clockReads := S (clockReads r) |}).

(** The store after an action. *)
Definition exec {A} (m : Action A) (r : Runtime) : Runtime := snd (m r).

(** *** removeMediaFile

    The synchronous part: the store update made before the storage delete
    is awaited.  Revoking the object URLs and the storage delete itself act
    outside the store; a failing delete is caught and logged. *)
Definition removeMediaFile (projectId id : string) : Action unit :=
  set (fun state =>
    Store.set_mediaFiles
      (filter (fun media => negb (MediaFile.id media =? id))
              (Store.mediaFiles state))
      state).

(** *** loadProjectMedia

    [loadProjectMedia_start] runs up to the [await]; once
    [storageService.loadAllMediaFiles] has settled,
    [loadProjectMedia_settle] runs the rest of the [try] block or the
    [catch] block, and then the [finally] block. *)
Definition loadProjectMedia_start (projectId : string) : Action unit :=
  set (Store.set_isLoading true).

Definition tryCatchFinally (body : Action bool) (handler finalizer : Action unit)
  : Action unit :=
  thrown <- body ;;
  (if thrown : bool then handler else ret tt) ;;;
  finalizer.

Definition loadProjectMedia_settle (projectId : string)
           (loaded : Settled (list MediaFile.t)) : Action unit :=
  tryCatchFinally
    (match loaded with
     | Resolved mediaItems =>
         let scopedMediaItems :=
           map (MediaFile.with_projectId (Some projectId)) mediaItems in
         set (Store.set_mediaFiles scopedMediaItems) ;;;
         ret false
     | Rejected => ret true
     end)
    (ret tt) (* console.error *)
    (set (Store.set_isLoading false)).

(** *** addFolder *)
Definition addFolder (name : string) (parentId projectId : option string)
  : Action string :=
  id <- generateUUID ;;
  createdAt <- dateNow ;;
  let newFolder :=
    MediaFolder.mk id name parentId projectId false (truthy projectId)
                   None createdAt in
  set (fun state =>
    Store.set_folders (Store.folders state ++ [newFolder]) state) ;;;
  ret id.

(** *** assignProjectToUnscoped *)
Definition assignProjectToUnscoped (projectId : string) : Action unit :=
  set (fun state =>
    Store.mk
      (map (fun media =>
              if truthy (MediaFile.projectId media) then media
              else MediaFile.with_projectId (Some projectId) media)
           (Store.mediaFiles state))
      (map (fun folder =>
              if truthy (MediaFolder.projectId folder)
                 || MediaFolder.isSystem folder
              then folder
              else MediaFolder.with_projectId (Some projectId) folder)
           (Store.folders state))
      (Store.currentFolderId state)
      (Store.isLoading state)).

(** *** deleteFolder

    [getDescendantIds] is a closure of [deleteFolder], recursive on the
    children of a folder.  [stack] bounds the depth of its recursion: a
    recursion deeper than the call stack allows ends in a [RangeError],
    modelled as [None]. *)
Fixpoint flatMapOpt {A B} (f : A -> option (list B)) (l : list A)
  : option (list B) :=
  match l with
  | [] => Some []
  | x :: r =>
      match f x with
      | None => None
      | Some ys =>
          match flatMapOpt f r with
          | None => None
          | Some zs => Some (ys ++ zs)
          end
      end
  end.

Fixpoint getDescendantIds (stack : nat) (folders : list MediaFolder.t)
         (folderId : string) : option (list string) :=
  match stack with
  | 0 => None
  | S deeper =>
      let children :=
        filter (fun f => strictEq (MediaFolder.parentId f) folderId) folders in
      match
        flatMapOpt (fun c => getDescendantIds deeper folders (MediaFolder.id c))
                   children
      with
      | None => None
      | Some below => Some (folderId :: below)
      end
  end.

(** How a synchronous action ends. *)
Inductive Outcome := Returned | RangeError.

(** [target?.isSystem] *)
Definition targetIsSystem (target : option MediaFolder.t) : bool :=
  match target with
  | Some f => MediaFolder.isSystem f
  | None => false
  end.

Definition deleteFolder (stack : nat) (id : string) : Action Outcome :=
  state <- get ;;
  let folders := Store.folders state in
  let mediaFiles := Store.mediaFiles state in
  let target := find (fun f => MediaFolder.id f =? id) folders in
  if targetIsSystem target then ret Returned
  else
    match getDescendantIds stack folders id with
    | None => ret RangeError
    | Some folderIdsToDelete =>
        let updatedFiles :=
          map (fun f =>
                 if includes folderIdsToDelete (orEmpty (MediaFile.folderId f))
                 then MediaFile.with_folderId None f
                 else f)
              mediaFiles in
        current <- get ;;
        set (fun s =>
          Store.mk
            updatedFiles
            (filter (fun f => negb (includes folderIdsToDelete (MediaFolder.id f)))
                    folders)
            (if includes folderIdsToDelete
                         (orEmpty (Store.currentFolderId current))
             then None
             else Store.currentFolderId current)
            (Store.isLoading s)) ;;;
        ret Returned
    end.

(** *** addMediaFromUrl *)
Record UrlOptions := {
  opt_url : string;
  opt_name : string;
  opt_type : MediaType;
  opt_source : MediaSource;
  opt_thumbnailUrl : option string;
  opt_duration : option number;
  opt_folderId : option string;
  opt_projectId : option string
}.

(** The synchronous part: the item is in the store when the call returns. *)
Definition addMediaFromUrl (o : UrlOptions) : Action string :=
  id <- generateUUID ;;
  let newItem :=
    MediaFile.mk id (opt_name o) (opt_type o) (Some (opt_url o))
                 (opt_thumbnailUrl o) (opt_duration o) None None
                 (Some (opt_source o)) (opt_folderId o) (opt_projectId o)
                 None false in
  set (fun state =>
    Store.set_mediaFiles (Store.mediaFiles state ++ [newItem]) state) ;;;
  ret id.

(** Whether the call leaves a background local-save task behind. *)
Definition startsLocalSave (o : UrlOptions) : bool :=
  match opt_type o with
  | image | video =>
      negb (opt_url o =? "")
      && (prefix "http" (opt_url o) || prefix "data:" (opt_url o))
  | audio => false
  end.

(** What the background task of item [id] does to the store each time one
    of its awaited [saveImageToLocal] calls settles: the url was saved as
    [localPath], the thumbnail was saved as [thumbLocalPath], or the save
    was rejected (caught and logged). *)
Inductive SaveSettled :=
| UrlSaved (id url localPath : string)
| ThumbnailSaved (id thumbnailUrl thumbLocalPath : string)
| SaveRejected (id : string).

Definition localSaveSettled (e : SaveSettled) : Action unit :=
  match e with
  | UrlSaved id url localPath =>
      if negb (localPath =? url) && prefix "local-image://" localPath
      then
        set (fun state =>
          Store.set_mediaFiles
            (map (fun f =>
                    if MediaFile.id f =? id
                    then MediaFile.with_url (Some localPath) f
                    else f)
                 (Store.mediaFiles state))
            state)
      else ret tt
  | ThumbnailSaved id thumbnailUrl thumbLocalPath =>
      if negb (thumbLocalPath =? thumbnailUrl)
         && prefix "local-image://" thumbLocalPath
      then
        set (fun state =>
          Store.set_mediaFiles
            (map (fun f =>
                    if MediaFile.id f =? id
                    then MediaFile.with_thumbnailUrl (Some thumbLocalPath) f
                    else f)
                 (Store.mediaFiles state))
            state)
      else ret tt
  | SaveRejected _ => ret tt
  end.

(** Any number of settled saves, of any tasks, in the order they settle. *)
Fixpoint localSavesSettled (es : list SaveSettled) : Action unit :=
  match es with
  | [] => ret tt
  | e :: rest => localSaveSettled e ;;; localSavesSettled rest
  end.

(** *** initSystemFolders *)
Definition isSystemOf (category : string) (f : MediaFolder.t) : bool :=
  MediaFolder.isSystem f && strictEq (MediaFolder.category f) category.

(** The [for] loop over [SYSTEM_CATEGORIES], pushing onto [newFolders]. *)
Fixpoint pushMissing (folders : list MediaFolder.t) (cats : list CategoryDef)
         (newFolders : list MediaFolder.t) : Action (list MediaFolder.t) :=
  match cats with
  | [] => ret newFolders
  | cat :: rest =>
      match find (isSystemOf (cat_category cat)) folders with
      | Some _ => pushMissing folders rest newFolders
      | None =>
          id <- generateUUID ;;
          createdAt <- dateNow ;;
          pushMissing folders rest
            (newFolders
             ++ [MediaFolder.mk id (cat_name cat) None None true false
                                (Some (cat_category cat)) createdAt])
      end
  end.

Definition isLegacyAiFolder (f : MediaFolder.t) : bool :=
  (MediaFolder.name f =? "AI生成")
  && negb (MediaFolder.isSystem f)
  && isNull (MediaFolder.parentId f).

(** [{ ...f, name: 'AI图片', isSystem: true, category: 'ai-image',
       projectId: undefined }] *)
Definition asAiImageFolder (f : MediaFolder.t) : MediaFolder.t :=
  MediaFolder.mk (MediaFolder.id f) "AI图片" (MediaFolder.parentId f) None
                 true (MediaFolder.isAutoCreated f) (Some "ai-image")
                 (MediaFolder.createdAt f).

Definition initSystemFolders : Action unit :=
  state <- get ;;
  let folders := Store.folders state in
  newFolders <- pushMissing folders SYSTEM_CATEGORIES [] ;;
  newFolders <-
    match find isLegacyAiFolder folders with
    | Some legacyAiFolder =>
        let hasAiImageFolder :=
          orElse (find (isSystemOf "ai-image") folders)
                 (find (fun f => strictEq (MediaFolder.category f) "ai-image")
                       newFolders) in
        match hasAiImageFolder with
        | None =>
            set (fun s =>
              Store.set_folders
                (map (fun f =>
                        if MediaFolder.id f =? MediaFolder.id legacyAiFolder
                        then asAiImageFolder f
                        else f)
                     (Store.folders s))
                s) ;;;
            match
              findIndex (fun f => strictEq (MediaFolder.category f) "ai-image")
                        newFolders
            with
            | Some idx => ret (splice1 idx newFolders)
            | None => ret newFolders
            end
        | Some _ => ret newFolders
        end
    | None => ret newFolders
    end ;;
  if (0 <? List.length newFolders)%nat
  then set (fun s => Store.set_folders (Store.folders s ++ newFolders) s)
  else ret tt.

(** *** addMediaFile

    The synchronous part: [file] is the item without its id (the [id] of the
    record given here is not read).  Saving to the storage service and, in
    Electron, to a local file happen afterwards; the local save updates the
    store as [localSaveSettled] does. *)
Definition addMediaFile (projectId : string) (file : MediaFile.t)
  : Action MediaFile.t :=
  id <- generateUUID ;;
  let newItem :=
    MediaFile.mk id (MediaFile.name file) (MediaFile.type file)
                 (MediaFile.url file) (MediaFile.thumbnailUrl file)
                 (MediaFile.duration file) (MediaFile.width file)
                 (MediaFile.height file) (MediaFile.source file)
                 (MediaFile.folderId file) (Some projectId)
                 (MediaFile.file file) (MediaFile.ephemeral file) in
  set (fun state =>
    Store.set_mediaFiles (Store.mediaFiles state ++ [newItem]) state) ;;;
  ret newItem.

(** *** clearProjectMedia, clearAllMedia

    [clearProjectMedia] returns the ids whose deletion it requests from the
    storage service, under the given project id. *)
Definition clearProjectMedia (projectId : string) : Action (list string) :=
  state <- get ;;
  set (Store.set_mediaFiles []) ;;;
  ret (map MediaFile.id (Store.mediaFiles state)).

Definition clearAllMedia : Action unit :=
  set (fun s => Store.mk [] [] None (Store.isLoading s)).

(** *** renameFolder, setCurrentFolder, renameMediaFile, moveToFolder *)
Definition renameFolder (id name : string) : Action unit :=
  set (fun state =>
    Store.set_folders
      (map (fun f =>
              if MediaFolder.id f =? id then MediaFolder.with_name name f else f)
           (Store.folders state))
      state).

Definition setCurrentFolder (id : option string) : Action unit :=
  set (fun s =>
    Store.mk (Store.mediaFiles s) (Store.folders s) id (Store.isLoading s)).

Definition renameMediaFile (id name : string) : Action unit :=
  set (fun state =>
    Store.set_mediaFiles
      (map (fun f =>
              if MediaFile.id f =? id then MediaFile.with_name name f else f)
           (Store.mediaFiles state))
      state).

Definition moveToFolder (mediaId : string) (folderId : option string)
  : Action unit :=
  set (fun state =>
    Store.set_mediaFiles
      (map (fun f =>
              if MediaFile.id f =? mediaId
              then MediaFile.with_folderId folderId f
              else f)
           (Store.mediaFiles state))
      state).

(** *** getOrCreateCategoryFolder *)
Definition getOrCreateCategoryFolder (category : string) : Action string :=
  state <- get ;;
  match find (isSystemOf category) (Store.folders state) with
  | Some existing => ret (MediaFolder.id existing)
  | None =>
      let catDef :=
        find (fun c => cat_category c =? category) SYSTEM_CATEGORIES in
      let name :=
        match catDef with
        | Some c => if cat_name c =? "" then category else cat_name c
        | None => category
        end in
      id <- generateUUID ;;
      createdAt <- dateNow ;;
      let newFolder :=
        MediaFolder.mk id name None None true false (Some category) createdAt in
      set (fun s => Store.set_folders (Store.folders s ++ [newFolder]) s) ;;;
      ret id
  end.

(** *** partialize: what is persisted of the store

    An item's [url] is a string or absent; [normalizeUrl] also admits the
    array form that older persisted data may hold. *)
Inductive UrlValue :=
| UrlAbsent
| UrlString (s : string)
| UrlArray (items : list string).

Definition normalizeUrl (url : UrlValue) : option string :=
  match url with
  | UrlAbsent => None
  | UrlString s => if s =? "" then None else Some s
  | UrlArray [] => None
  | UrlArray (u :: _) => if u =? "" then None else Some u
  end.

Definition urlValue (o : option string) : UrlValue :=
  match o with
  | Some s => UrlString s
  | None => UrlAbsent
  end.

Definition isTransientUrl (u : option string) : bool :=
  match u with
  | None => true
  | Some s => (s =? "") || prefix "blob:" s || prefix "data:" s
  end.

Definition persistedItem (f : MediaFile.t) : MediaFile.t :=
  let normalizedUrl := normalizeUrl (urlValue (MediaFile.url f)) in
  let normalizedThumbnail := normalizeUrl (urlValue (MediaFile.thumbnailUrl f)) in
  MediaFile.mk (MediaFile.id f) (MediaFile.name f) (MediaFile.type f)
               (if isTransientUrl normalizedUrl then None else normalizedUrl)
               (if isTransientUrl normalizedThumbnail then None
                else normalizedThumbnail)
               (MediaFile.duration f) (MediaFile.width f) (MediaFile.height f)
               (MediaFile.source f) (MediaFile.folderId f)
               (MediaFile.projectId f) None (MediaFile.ephemeral f).

Definition partialize (state : Store.t) : Persisted.t :=
  Persisted.mk
    (Store.folders state)
    (map persistedItem
         (filter (fun f => negb (MediaFile.ephemeral f))
                 (Store.mediaFiles state))).

(** *** migrateMediaDataUrls

    [saveImageToLocal k u] is what the [k]-th awaited call of
    [saveImageToLocal], on the source [u], settles with.  The files are
    migrated one after the other; the number of calls made is returned. *)
Variable saveImageToLocal : nat -> string -> Settled string.

(** [u && u.startsWith('data:')] *)
Definition isDataUrl (u : option string) : bool :=
  match u with
  | Some s => negb (s =? "") && prefix "data:" s
  | None => false
  end.

Definition needsMigration (f : MediaFile.t) : bool :=
  isDataUrl (MediaFile.url f) || isDataUrl (MediaFile.thumbnailUrl f).

Definition migrateThumbnail (k : nat) (file : MediaFile.t) : Action nat :=
  if isDataUrl (MediaFile.thumbnailUrl file)
  then
    match saveImageToLocal k (orEmpty (MediaFile.thumbnailUrl file)) with
    | Resolved localPath =>
        localSaveSettled
          (ThumbnailSaved (MediaFile.id file)
                          (orEmpty (MediaFile.thumbnailUrl file)) localPath) ;;;
        ret (S k)
    | Rejected => ret (S k)
    end
  else ret k.

(** The body of the loop: a rejected save is caught, which ends the work on
    this file. *)
Definition migrateFile (k : nat) (file : MediaFile.t) : Action nat :=
  if isDataUrl (MediaFile.url file)
  then
    match saveImageToLocal k (orEmpty (MediaFile.url file)) with
    | Resolved localPath =>
        localSaveSettled
          (UrlSaved (MediaFile.id file) (orEmpty (MediaFile.url file))
                    localPath) ;;;
        migrateThumbnail (S k) file
    | Rejected => ret (S k)
    end
  else migrateThumbnail k file.

Fixpoint migrateFiles (k : nat) (files : list MediaFile.t) : Action nat :=
  match files with
  | [] => ret k
  | file :: rest => k' <- migrateFile k file ;; migrateFiles k' rest
  end.

Definition migrateMediaDataUrls (state : Store.t) : Action nat :=
  let filesToMigrate := filter needsMigration (Store.mediaFiles state) in
  if (List.length filesToMigrate =? 0)%nat then ret 0
  else migrateFiles 0 filesToMigrate.

(** *** onRehydrateStorage *)
Definition onRehydrateStorage : Action nat :=
  state <- get ;;
  initSystemFolders ;;;
  migrateMediaDataUrls state.

End Actions.

(** * Specification vocabulary *)

Definition folderIds (l : list MediaFolder.t) : list string :=
  map MediaFolder.id l.

Definition fileIds (l : list MediaFile.t) : list string :=
  map MediaFile.id l.

(** ** Sample entries *)

Definition sampleFile (id : string) (folderId projectId : option string)
  : MediaFile.t :=
  MediaFile.mk id "clip.png" image (Some "local-image://shots/clip.png") None
               None None None (Some ai_image) folderId projectId None false.

Definition userFolder (id : string) (parentId projectId : option string)
  : MediaFolder.t :=
  MediaFolder.mk id "Clips" parentId projectId false (truthy projectId) None
                 1700000000000%Z.

Definition systemFolder (id category : string) : MediaFolder.t :=
  MediaFolder.mk id category None None true false (Some category)
                 1700000000000%Z.

(** ** The partitioner *)

(** The entries that the catalog written for project [pid] keeps. *)
Definition folderInScope (pid : string) (f : MediaFolder.t) : bool :=
  isSharedFolder f || isProjectFolder pid f.

Definition fileInScope (pid : string) (m : MediaFile.t) : bool :=
  isSharedFile m || isProjectFile pid m.

(** Reading back reproduces the folder set and the item set, and is a fixed
    point. *)
Definition roundtrip_reproduces (C : Persisted.t) (pid : string) : Prop :=
  let R := splitThenMerge C pid in
  (forall f, In f (Persisted.folders R) <-> In f (Persisted.folders C))
  /\ (forall m, In m (Persisted.mediaFiles R) <-> In m (Persisted.mediaFiles C))
  /\ splitThenMerge R pid = R.

(** The two partitions share no id, and an auto-created folder without a
    project is in neither. *)
Definition split_disjoint (C : Persisted.t) (pid : string) : Prop :=
  let parts := splitMediaData C pid in
  (forall x, In x (folderIds (Persisted.folders (projectData parts))) ->
             ~ In x (folderIds (Persisted.folders (sharedData parts))))
  /\ (forall x, In x (fileIds (Persisted.mediaFiles (projectData parts))) ->
                ~ In x (fileIds (Persisted.mediaFiles (sharedData parts))))
  /\ (forall f, In f (Persisted.folders C) ->
                MediaFolder.isAutoCreated f = true ->
                MediaFolder.isSystem f = false ->
                truthy (MediaFolder.projectId f) = false ->
                ~ In f (Persisted.folders (projectData parts))
                /\ ~ In f (Persisted.folders (sharedData parts))).

(** A catalog holding an item of another project. *)
Definition catalogWithOtherProject : Persisted.t :=
  Persisted.mk [] [sampleFile "m1" None (Some "q")].

(** A catalog holding a folder whose project id is the empty string. *)
Definition catalogWithEmptyProject : Persisted.t :=
  Persisted.mk [userFolder "f1" None (Some "")] [].

(** A catalog in which two items carry the same id. *)
Definition catalogWithTwins : Persisted.t :=
  Persisted.mk [] [sampleFile "m1" None (Some "p"); sampleFile "m1" None None].

(** An auto-created folder that has no project id yet. *)
Definition scratchFolder : MediaFolder.t :=
  MediaFolder.mk "f4" "Scratch" None None false true None 1700000000000%Z.

(** A catalog of project [p] with a shared part, a folder and an item of
    another project, and a scratch folder. *)
Definition catalogOfP : Persisted.t :=
  Persisted.mk
    [userFolder "f1" None (Some "p"); systemFolder "s1" "ai-image";
     userFolder "f2" None None; userFolder "f3" None (Some "q");
     scratchFolder]
    [sampleFile "m1" (Some "f1") (Some "p"); sampleFile "m2" None None;
     sampleFile "m3" None (Some "q")].

(** ** Project assignment *)

(** How [assignProjectToUnscoped pid] relates an item to what it becomes. *)
Definition fileAssigned (pid : string) (m m' : MediaFile.t) : Prop :=
  (truthy (MediaFile.projectId m) = false ->
   MediaFile.projectId m' = Some pid
   /\ m' = MediaFile.with_projectId (Some pid) m)
  /\ (truthy (MediaFile.projectId m) = true -> m' = m).

(** The same for a folder. *)
Definition folderAssigned (pid : string) (f f' : MediaFolder.t) : Prop :=
  (MediaFolder.isSystem f = false ->
   truthy (MediaFolder.projectId f) = false ->
   MediaFolder.projectId f' = Some pid
   /\ f' = MediaFolder.with_projectId (Some pid) f)
  /\ (truthy (MediaFolder.projectId f) = true -> f' = f)
  /\ (MediaFolder.isSystem f = true -> f' = f).

(** ** Sample stores *)

Definition runtimeOf (s : Store.t) : Runtime :=
  {| store := s; uuidCalls := 0; clockReads := 0 |}.

(** A system folder holding an item, and a user folder. *)
Definition storeWithSystemFolder : Store.t :=
  Store.mk [sampleFile "m1" (Some "s1") None]
           [systemFolder "s1" "ai-image"; userFolder "f1" None None]
           (Some "s1") false.

(** ** The folder forest *)

(** [child] is the id of a folder whose parent id is [parent]. *)
Definition childOf (folders : list MediaFolder.t) (parent child : string) : Prop :=
  exists f, In f folders
            /\ MediaFolder.parentId f = Some parent
            /\ MediaFolder.id f = child.

(** The ids under [root]: [root] itself and, transitively, the ids of the
    folders parented under it. *)
Inductive descendantOf (folders : list MediaFolder.t) (root : string)
  : string -> Prop :=
| desc_self : descendantOf folders root root
| desc_child (f : MediaFolder.t) (y : string) :
    In f folders ->
    MediaFolder.parentId f = Some root ->
    descendantOf folders (MediaFolder.id f) y ->
    descendantOf folders root y.

(** Going down from [root] along parent links always ends: no folder under
    [root] is its own ancestor. *)
Definition forestBelow (folders : list MediaFolder.t) (root : string) : Prop :=
  Acc (fun child parent => childOf folders parent child) root.

(** An optional id that names a member of [P]. *)
Definition inSet (P : string -> Prop) (o : option string) : Prop :=
  exists x, o = Some x /\ P x.

(** [s'] is [s] after the folders whose id is in [P] were deleted: these
    folders and no others are gone, the items that pointed into [P] are at
    the root and the others are as they were, and the current folder is
    reset when it was in [P]. *)
Definition deletion (P : string -> Prop) (s s' : Store.t) : Prop :=
  (forall g, In g (Store.folders s') <->
             In g (Store.folders s) /\ ~ P (MediaFolder.id g))
  /\ Forall2 (fun m m' =>
                (inSet P (MediaFile.folderId m) ->
                 m' = MediaFile.with_folderId None m)
                /\ (~ inSet P (MediaFile.folderId m) -> m' = m))
             (Store.mediaFiles s) (Store.mediaFiles s')
  /\ (inSet P (Store.currentFolderId s) -> Store.currentFolderId s' = None)
  /\ (~ inSet P (Store.currentFolderId s) ->
      Store.currentFolderId s' = Store.currentFolderId s)
  /\ Store.isLoading s' = Store.isLoading s.

(** The store after a call that got past the guard and the recursion. *)
Definition afterDelete (removed : list string) (s : Store.t) : Store.t :=
  Store.mk
    (map (fun f =>
            if includes removed (orEmpty (MediaFile.folderId f))
            then MediaFile.with_folderId None f
            else f)
         (Store.mediaFiles s))
    (filter (fun f => negb (includes removed (MediaFolder.id f)))
            (Store.folders s))
    (if includes removed (orEmpty (Store.currentFolderId s))
     then None
     else Store.currentFolderId s)
    (Store.isLoading s).

(** [deleteFolder id], given [stack] frames, returns and has deleted the
    folders under [id]. *)
Definition cascades (stack : nat) (r : Runtime) (id : string) : Prop :=
  fst (deleteFolder stack id r) = Returned
  /\ deletion (descendantOf (Store.folders (store r)) id)
              (store r) (store (snd (deleteFolder stack id r))).

(** The cascade, for a folder [F] of the store that is not a system folder. *)
Definition cascade_of_present_folder (r : Runtime) (F : MediaFolder.t) : Prop :=
  In F (Store.folders (store r)) ->
  MediaFolder.isSystem F = false ->
  exists N, forall stack, N <= stack -> cascades stack r (MediaFolder.id F).

(** [deleteFolder X], given [stack] frames, returns with the folders as they
    were, the items that pointed to [X] at the root, the current folder reset
    when it was [X], and a store that differs when an item pointed to [X]. *)
Definition repairs (stack : nat) (r : Runtime) (X : string) : Prop :=
  let s := store r in
  let s' := store (snd (deleteFolder stack X r)) in
  fst (deleteFolder stack X r) = Returned
  /\ Store.folders s' = Store.folders s
  /\ deletion (eq X) s s'
  /\ ((exists m, In m (Store.mediaFiles s) /\ MediaFile.folderId m = Some X) ->
      s' <> s).

(** The repair, for an id [X] that no folder of the store carries. *)
Definition repair_of_unknown_id (r : Runtime) (X : string) : Prop :=
  (forall f, In f (Store.folders (store r)) -> MediaFolder.id f <> X) ->
  exists N, forall stack, N <= stack -> repairs stack r X.

(** A folder that is its own parent. *)
Definition storeWithLoop : Store.t :=
  Store.mk [] [userFolder "a" (Some "a") None] None false.

(** Two folders under one id, the first of them a system folder. *)
Definition storeWithShadowedFolder : Store.t :=
  Store.mk [] [systemFolder "a" "upload"; userFolder "a" None None] None false.


(** A small forest: [a] over [b] over [c], and [d] apart. *)
Definition storeWithTree : Store.t :=
  Store.mk
    [sampleFile "m1" (Some "b") None; sampleFile "m2" (Some "d") None;
     sampleFile "m3" None None; sampleFile "m4" (Some "gone") None]
    [userFolder "a" None None; userFolder "b" (Some "a") None;
     userFolder "c" (Some "b") None; userFolder "d" None None]
    (Some "c") false.

Definition heightInTree (id : string) : nat :=
  if id =? "a" then 2 else if id =? "b" then 1 else 0.

(** ** System folders *)

Definition fixedCategories : list string :=
  map cat_category SYSTEM_CATEGORIES.

(** The number of system folders of a category. *)
Definition systemCount (category : string) (folders : list MediaFolder.t) : nat :=
  List.length (filter (isSystemOf category) folders).

(** The categories of [cats] for which [folders] has no system folder. *)
Definition missingCategories (folders : list MediaFolder.t)
           (cats : list CategoryDef) : list CategoryDef :=
  filter (fun cat =>
            match find (isSystemOf (cat_category cat)) folders with
            | Some _ => false
            | None => true
            end)
         cats.

(** The system folders pushed for [cats], the oracles having been called
    [u] and [c] times before. *)
Fixpoint freshSystemFolders (uuidAt : nat -> string) (nowAt : nat -> number)
         (u c : nat) (cats : list CategoryDef) : list MediaFolder.t :=
  match cats with
  | [] => []
  | cat :: rest =>
      MediaFolder.mk (uuidAt u) (cat_name cat) None None true false
                     (Some (cat_category cat)) (nowAt c)
      :: freshSystemFolders uuidAt nowAt (S u) (S c) rest
  end.

(** Running [initSystemFolders] twice: the second run changes nothing, and
    each fixed category has exactly one system folder. *)
Definition init_twice_exactly_one (uuidAt : nat -> string)
           (nowAt : nat -> number) (r : Runtime) : Prop :=
  let r1 := exec (initSystemFolders uuidAt nowAt) r in
  let r2 := exec (initSystemFolders uuidAt nowAt) r1 in
  store r2 = store r1
  /\ forall c, In c fixedCategories ->
               systemCount c (Store.folders (store r1)) = 1.

(** Sample oracles. *)
Definition sampleUuid (k : nat) : string :=
  "uuid-" ++ String (Ascii.ascii_of_nat (48 + k)) "".

Definition sampleNow (k : nat) : number :=
  (1700000000000 + Z.of_nat k)%Z.

(** The initial store after [addFolder "Clips" "X"]: a folder whose parent id
    names no folder. *)
Definition runtimeWithOrphan : Runtime :=
  exec (addFolder sampleUuid sampleNow "Clips" (Some "X") None)
       (runtimeOf Store.initial).

(** Two system folders of one category. *)
Definition storeWithTwoAiImage : Store.t :=
  Store.mk [] [systemFolder "s1" "ai-image"; systemFolder "s2" "ai-image"]
           None false.

(** The legacy folder, holding an item, and no system folder. *)
Definition legacyFolder : MediaFolder.t :=
  MediaFolder.mk "legacy" "AI生成" None None false false None 1600000000000%Z.

Definition storeWithLegacy : Store.t :=
  Store.mk [sampleFile "m1" (Some "legacy") None] [legacyFolder] None false.

(** ** The store as a state machine *)

(** The synchronous store updates: the actions, and the steps that the
    asynchronous ones make when an awaited call settles. *)
Inductive Mutation :=
| AddMediaFile (projectId : string) (file : MediaFile.t)
| RemoveMediaFile (projectId id : string)
| LoadProjectMediaStart (projectId : string)
| LoadProjectMediaSettle (projectId : string) (loaded : Settled (list MediaFile.t))
| ClearProjectMedia (projectId : string)
| ClearAllMedia
| AddFolder (name : string) (parentId projectId : option string)
| RenameFolder (id name : string)
| DeleteFolder (stack : nat) (id : string)
| SetCurrentFolder (id : option string)
| RenameMediaFile (id name : string)
| MoveToFolder (mediaId : string) (folderId : option string)
| AddMediaFromUrl (o : UrlOptions)
| LocalSaveSettled (e : SaveSettled)
| GetOrCreateCategoryFolder (category : string)
| InitSystemFolders
| AssignProjectToUnscoped (projectId : string).

Definition run (uuidAt : nat -> string) (nowAt : nat -> number)
           (m : Mutation) : Runtime -> Runtime :=
  match m with
  | AddMediaFile projectId file => exec (addMediaFile uuidAt projectId file)
  | RemoveMediaFile projectId id => exec (removeMediaFile projectId id)
  | LoadProjectMediaStart projectId => exec (loadProjectMedia_start projectId)
  | LoadProjectMediaSettle projectId loaded =>
      exec (loadProjectMedia_settle projectId loaded)
  | ClearProjectMedia projectId => exec (clearProjectMedia projectId)
  | ClearAllMedia => exec clearAllMedia
  | AddFolder name parentId projectId =>
      exec (addFolder uuidAt nowAt name parentId projectId)
  | RenameFolder id name => exec (renameFolder id name)
  | DeleteFolder stack id => exec (deleteFolder stack id)
  | SetCurrentFolder id => exec (setCurrentFolder id)
  | RenameMediaFile id name => exec (renameMediaFile id name)
  | MoveToFolder mediaId folderId => exec (moveToFolder mediaId folderId)
  | AddMediaFromUrl o => exec (addMediaFromUrl uuidAt o)
  | LocalSaveSettled e => exec (localSaveSettled e)
  | GetOrCreateCategoryFolder category =>
      exec (getOrCreateCategoryFolder uuidAt nowAt category)
  | InitSystemFolders => exec (initSystemFolders uuidAt nowAt)
  | AssignProjectToUnscoped projectId =>
      exec (assignProjectToUnscoped projectId)
  end.

(** How one mutation changes the folder list. *)
Inductive FolderChange (uuidAt : nat -> string) (nowAt : nat -> number)
          (r r' : Runtime) : Prop :=
| fc_same :
    Store.folders (store r') = Store.folders (store r) ->
    uuidCalls r <= uuidCalls r' ->
    FolderChange uuidAt nowAt r r'
| fc_cleared :
    Store.folders (store r') = [] ->
    uuidCalls r <= uuidCalls r' ->
    FolderChange uuidAt nowAt r r'
| fc_mapped (g : MediaFolder.t -> MediaFolder.t) :
    Store.folders (store r') = map g (Store.folders (store r)) ->
    (forall f, MediaFolder.id (g f) = MediaFolder.id f
               /\ MediaFolder.parentId (g f) = MediaFolder.parentId f
               /\ MediaFolder.isSystem (g f) = MediaFolder.isSystem f
               /\ MediaFolder.category (g f) = MediaFolder.category f
               /\ (MediaFolder.isSystem f = true ->
                   MediaFolder.projectId (g f) = MediaFolder.projectId f)) ->
    uuidCalls r <= uuidCalls r' ->
    FolderChange uuidAt nowAt r r'
| fc_filtered (p : MediaFolder.t -> bool) :
    Store.folders (store r') = filter p (Store.folders (store r)) ->
    uuidCalls r <= uuidCalls r' ->
    FolderChange uuidAt nowAt r r'
| fc_added (created : MediaFolder.t) :
    Store.folders (store r') = Store.folders (store r) ++ [created] ->
    MediaFolder.isSystem created = false ->
    MediaFolder.id created = uuidAt (uuidCalls r) ->
    uuidCalls r' = S (uuidCalls r) ->
    FolderChange uuidAt nowAt r r'
| fc_system (cats : list CategoryDef) :
    Store.folders (store r')
    = Store.folders (store r)
      ++ freshSystemFolders uuidAt nowAt (uuidCalls r) (clockReads r) cats ->
    NoDup (map cat_category cats) ->
    (forall cat, In cat cats ->
       find (isSystemOf (cat_category cat)) (Store.folders (store r)) = None) ->
    uuidCalls r' = uuidCalls r + List.length cats ->
    FolderChange uuidAt nowAt r r'.

(** A system folder is a root without project, bound to a category, and no
    category has two of them. *)
Definition systemFoldersInvariant (folders : list MediaFolder.t) : Prop :=
  (forall f, In f folders -> MediaFolder.isSystem f = true ->
             MediaFolder.parentId f = None
             /\ MediaFolder.projectId f = None
             /\ MediaFolder.category f <> None)
  /\ (forall category, systemCount category folders <= 1).

(** The folder ids are pairwise distinct, each a value that [generateUUID]
    has returned. *)
Definition folderIdsIssued (uuidAt : nat -> string) (r : Runtime) : Prop :=
  NoDup (folderIds (Store.folders (store r)))
  /\ forall f, In f (Store.folders (store r)) ->
               exists k, k < uuidCalls r /\ MediaFolder.id f = uuidAt k.

(** Every folder id that an item or a folder points to is the id of a
    folder. *)
Definition referencesResolved (s : Store.t) : Prop :=
  (forall m x, In m (Store.mediaFiles s) -> MediaFile.folderId m = Some x ->
               In x (folderIds (Store.folders s)))
  /\ (forall f p, In f (Store.folders s) -> MediaFolder.parentId f = Some p ->
                  In p (folderIds (Store.folders s))).

(** An item without its [url] and [thumbnailUrl]: what a save may never
    change. *)
Definition stripUrls (m : MediaFile.t) : MediaFile.t :=
  MediaFile.with_url None (MediaFile.with_thumbnailUrl None m).

(** An item without [url], [thumbnailUrl] and [file]. *)
Definition metadataOf (m : MediaFile.t) : MediaFile.t :=
  MediaFile.mk (MediaFile.id m) (MediaFile.name m) (MediaFile.type m) None None
               (MediaFile.duration m) (MediaFile.width m) (MediaFile.height m)
               (MediaFile.source m) (MediaFile.folderId m)
               (MediaFile.projectId m) None (MediaFile.ephemeral m).

(** What [partialize] keeps of a url. *)
Definition persistedUrl (o : option string) : option string :=
  if isTransientUrl (normalizeUrl (urlValue o)) then None
  else normalizeUrl (urlValue o).

(** A url that may be persisted: absent, or neither empty nor a [blob:] or
    [data:] url. *)
Definition durableUrl (o : option string) : Prop :=
  o = None \/ isTransientUrl o = false.

(** Every awaited save resolves with a local path. *)
Definition alwaysSavesLocally (save : nat -> string -> Settled string) : Prop :=
  forall k u, exists p, save k u = Resolved p
                        /\ prefix "local-image://" p = true.

(** A store that holds the folders and the items of a persisted catalog. *)
Definition storeHolding (P : Persisted.t) : Store.t :=
  Store.mk (Persisted.mediaFiles P) (Persisted.folders P) None false.

(** An oracle that never repeats itself. *)
Fixpoint tally (k : nat) : string :=
  match k with
  | 0 => ""
  | S j => String (Ascii.ascii_of_nat 120) (tally j)
  end.

Definition tallyUuid (k : nat) : string := "u" ++ tally k.

(** A save that always succeeds, and one that is always rejected. *)
Definition saveAsLocal (k : nat) (source : string) : Settled string :=
  Resolved (String.append "local-image://migrated/" (tally k)).

Definition saveRejected (k : nat) (source : string) : Settled string :=
  Rejected.

(** Items with inline data, a transient handle, and an ephemeral one. *)
Definition inlineFile (id : string) (url thumbnailUrl : option string)
           (ephemeral : bool) : MediaFile.t :=
  MediaFile.mk id "shot.png" image url thumbnailUrl None None None
               (Some ai_image) None None (Some "File#1") ephemeral.

Definition storeWithInlineData : Store.t :=
  Store.mk
    [inlineFile "m1" (Some "data:image/png;base64,AAAA") None false;
     inlineFile "m2" (Some "local-image://shots/b.png")
                (Some "data:image/png;base64,BBBB") false;
     inlineFile "m3" (Some "blob:http://localhost/1") None false;
     inlineFile "m4" (Some "https://example.com/c.png") None true;
     inlineFile "m5" (Some "https://example.com/d.png") None false]
    [systemFolder "s1" "ai-image"] None false.

(** Mutations one after the other. *)
Definition runAll (uuidAt : nat -> string) (nowAt : nat -> number)
           (ms : list Mutation) (r : Runtime) : Runtime :=
  fold_left (fun acc m => run uuidAt nowAt m acc) ms r.

(** A session: system folders, a project folder with an item in it, a
    custom category, a deletion. *)
Definition sampleSession : list Mutation :=
  [InitSystemFolders;
   AddFolder "Clips" None (Some "p");
   AddMediaFile "p" (sampleFile "" (Some "u") None);
   GetOrCreateCategoryFolder "custom";
   GetOrCreateCategoryFolder "ai-image";
   RenameFolder "u" "Old upload";
   AssignProjectToUnscoped "p";
   DeleteFolder 4 "uxxx";
   InitSystemFolders].

(** ** The migration, as the saves it applies *)

(** The item whose background task a settled save belongs to. *)
Definition savedId (e : SaveSettled) : string :=
  match e with
  | UrlSaved id _ _ => id
  | ThumbnailSaved id _ _ => id
  | SaveRejected id => id
  end.

(** What a settled save does to the items. *)
Definition applySave (e : SaveSettled) (l : list MediaFile.t)
  : list MediaFile.t :=
  match e with
  | UrlSaved id url localPath =>
      if negb (localPath =? url) && prefix "local-image://" localPath
      then map (fun f => if MediaFile.id f =? id
                         then MediaFile.with_url (Some localPath) f else f) l
      else l
  | ThumbnailSaved id thumbnailUrl thumbLocalPath =>
      if negb (thumbLocalPath =? thumbnailUrl)
         && prefix "local-image://" thumbLocalPath
      then map (fun f => if MediaFile.id f =? id
                         then MediaFile.with_thumbnailUrl (Some thumbLocalPath) f
                         else f) l
      else l
  | SaveRejected _ => l
  end.

Definition applySaves (es : list SaveSettled) (l : list MediaFile.t)
  : list MediaFile.t :=
  fold_left (fun acc e => applySave e acc) es l.

(** The saves that settle while one file is migrated, with the number of
    calls made after it. *)
Definition thumbnailSaves (save : nat -> string -> Settled string) (k : nat)
           (file : MediaFile.t) : list SaveSettled * nat :=
  if isDataUrl (MediaFile.thumbnailUrl file)
  then
    match save k (orEmpty (MediaFile.thumbnailUrl file)) with
    | Resolved localPath =>
        ([ThumbnailSaved (MediaFile.id file)
                         (orEmpty (MediaFile.thumbnailUrl file)) localPath],
         S k)
    | Rejected => ([], S k)
    end
  else ([], k).

Definition fileSaves (save : nat -> string -> Settled string) (k : nat)
           (file : MediaFile.t) : list SaveSettled * nat :=
  if isDataUrl (MediaFile.url file)
  then
    match save k (orEmpty (MediaFile.url file)) with
    | Resolved localPath =>
        (UrlSaved (MediaFile.id file) (orEmpty (MediaFile.url file)) localPath
         :: fst (thumbnailSaves save (S k) file),
         snd (thumbnailSaves save (S k) file))
    | Rejected => ([], S k)
    end
  else thumbnailSaves save k file.

Fixpoint filesSaves (save : nat -> string -> Settled string) (k : nat)
         (files : list MediaFile.t) : list SaveSettled * nat :=
  match files with
  | [] => ([], k)
  | file :: rest =>
      (fst (fileSaves save k file)
       ++ fst (filesSaves save (snd (fileSaves save k file)) rest),
       snd (filesSaves save (snd (fileSaves save k file)) rest))
  end.

(** What a file's migration makes of an item when its saves resolve with the
    local paths [p] (url) and [q] (thumbnail). *)
Definition savedAs (file : MediaFile.t) (p q : string) (m : MediaFile.t)
  : MediaFile.t :=
  let m1 :=
    if isDataUrl (MediaFile.url file) && (MediaFile.id m =? MediaFile.id file)
    then MediaFile.with_url (Some p) m else m in
  if isDataUrl (MediaFile.thumbnailUrl file)
     && (MediaFile.id m =? MediaFile.id file)
  then MediaFile.with_thumbnailUrl (Some q) m1 else m1.

(** ** Two readings that the store does not share *)

(** [deleteFolder] on the id of any system folder of the store leaves the
    store as it is. *)
Definition system_folder_is_kept (r : Runtime) (F : MediaFolder.t) : Prop :=
  In F (Store.folders (store r)) ->
  MediaFolder.isSystem F = true ->
  forall stack,
    store (snd (deleteFolder stack (MediaFolder.id F) r)) = store r.

(** A system folder behind a user folder of the same id. *)
Definition storeWithHiddenSystemFolder : Store.t :=
  Store.mk [sampleFile "m1" (Some "a") None]
           [userFolder "a" None None; systemFolder "a" "upload"]
           None false.

(** [assignProjectToUnscoped] gives the project id to what has no project id
    at all, and leaves alone what has one, whatever it is. *)
Definition assign_spares_any_projectId (r : Runtime) (pid : string) : Prop :=
  let s := store r in
  let s' := store (exec (assignProjectToUnscoped pid) r) in
  Forall2 (fun m m' =>
             (MediaFile.projectId m = None -> MediaFile.projectId m' = Some pid)
             /\ (MediaFile.projectId m <> None -> m' = m))
          (Store.mediaFiles s) (Store.mediaFiles s')
  /\ Forall2 (fun f f' =>
                (MediaFolder.isSystem f = false ->
                 MediaFolder.projectId f = None ->
                 MediaFolder.projectId f' = Some pid)
                /\ (MediaFolder.projectId f <> None -> f' = f)
                /\ (MediaFolder.isSystem f = true -> f' = f))
             (Store.folders s) (Store.folders s').

(** The initial store after [addMediaFile ("", file)]: an item whose project
    id is the empty string. *)
Definition runtimeWithEmptyProjectItem : Runtime :=
  exec (addMediaFile sampleUuid "" (sampleFile "" None None))
       (runtimeOf Store.initial).

(** * Properties *)

(** ** Generic facts on [filter], [find] and [map] *)

Section ListFacts.
Context {A : Type}.
Variables p q : A -> bool.

Lemma filter_nil_when (l : list A) :
  (forall x, In x l -> p x = false) -> filter p l = [].
Proof.
  induction l as [|x r IH]; intros H; simpl; [reflexivity|].
  rewrite (H x (or_introl eq_refl)). apply IH.
  intros y Hy. apply H. now right.
Qed.

Lemma filter_id_when (l : list A) :
  (forall x, In x l -> p x = true) -> filter p l = l.
Proof.
  induction l as [|x r IH]; intros H; simpl; [reflexivity|].
  rewrite (H x (or_introl eq_refl)). f_equal. apply IH.
  intros y Hy. apply H. now right.
Qed.

Lemma filter_filter_same (l : list A) : filter p (filter p l) = filter p l.
Proof.
  apply filter_id_when. intros x Hx. now apply filter_In in Hx.
Qed.

Lemma filter_filter_excl (l : list A) :
  (forall x, q x = true -> p x = false) -> filter p (filter q l) = [].
Proof.
  intros H. apply filter_nil_when. intros x Hx.
  apply filter_In in Hx. now apply H.
Qed.

(** Two exclusive filters split what either keeps, up to order. *)
Lemma filter_either_perm (l : list A) :
  (forall x, q x = true -> p x = false) ->
  Permutation (filter q l ++ filter p l) (filter (fun x => q x || p x) l).
Proof.
  intros Hex. induction l as [|x r IH]; simpl; [constructor|].
  destruct (q x) eqn:Hq.
  - rewrite (Hex x Hq). simpl. now constructor.
  - simpl. destruct (p x).
    + apply Permutation_sym, Permutation_cons_app, Permutation_sym, IH.
    + exact IH.
Qed.

Lemma find_none_filter (l : list A) :
  find p l = None <-> filter p l = [].
Proof.
  induction l as [|x r IH]; simpl; [tauto|].
  destruct (p x); [split; discriminate | exact IH].
Qed.
End ListFacts.

(** Entries of a list with pairwise distinct keys are told apart by key. *)
Lemma NoDup_map_eq {A B} (key : A -> B) (l : list A) (a b : A) :
  NoDup (map key l) -> In a l -> In b l -> key a = key b -> a = b.
Proof.
  induction l as [|x r IH]; simpl; intros Hnd Ha Hb Hk; [contradiction|].
  inversion Hnd as [|? ? Hx Hr]; subst.
  destruct Ha as [<-|Ha], Hb as [<-|Hb]; auto.
  - exfalso. apply Hx. rewrite Hk. now apply in_map.
  - exfalso. apply Hx. rewrite <- Hk. now apply in_map.
Qed.

Lemma perm_filter_In {A} (p : A -> bool) (l l' : list A) (x : A) :
  Permutation l (filter p l') -> In x l <-> In x l' /\ p x = true.
Proof.
  intros HP. rewrite <- filter_In. split; apply Permutation_in; trivial.
  now apply Permutation_sym.
Qed.

(** ** The partitioner *)

Lemma truthy_strictEq (o : option string) (pid : string) :
  pid <> "" -> strictEq o pid = true -> truthy o = true.
Proof.
  intros Hp. destruct o as [s|]; simpl; [|discriminate].
  intros H. apply String.eqb_eq in H. subst s.
  apply negb_true_iff, String.eqb_neq, Hp.
Qed.

Lemma shared_not_project_folder (pid : string) (f : MediaFolder.t) :
  pid <> "" -> isSharedFolder f = true -> isProjectFolder pid f = false.
Proof.
  intros Hp. unfold isSharedFolder, isProjectFolder.
  destruct (MediaFolder.isSystem f); simpl; [now rewrite andb_false_r|].
  destruct (strictEq (MediaFolder.projectId f) pid) eqn:E; [|reflexivity].
  now rewrite (truthy_strictEq _ Hp E).
Qed.

Lemma project_not_shared_folder (pid : string) (f : MediaFolder.t) :
  pid <> "" -> isProjectFolder pid f = true -> isSharedFolder f = false.
Proof.
  intros Hp H. destruct (isSharedFolder f) eqn:E; [|reflexivity].
  now rewrite (shared_not_project_folder _ Hp E) in H.
Qed.

Lemma shared_not_project_file (pid : string) (m : MediaFile.t) :
  pid <> "" -> isSharedFile m = true -> isProjectFile pid m = false.
Proof.
  intros Hp. unfold isSharedFile, isProjectFile.
  destruct (strictEq (MediaFile.projectId m) pid) eqn:E; [|reflexivity].
  now rewrite (truthy_strictEq _ Hp E).
Qed.

Lemma project_not_shared_file (pid : string) (m : MediaFile.t) :
  pid <> "" -> isProjectFile pid m = true -> isSharedFile m = false.
Proof.
  intros Hp H. destruct (isSharedFile m) eqn:E; [|reflexivity].
  now rewrite (shared_not_project_file _ Hp E) in H.
Qed.

(** No entry lies in both partitions, whatever the catalog. *)
Lemma split_exclusive_entries (C : Persisted.t) (pid : string) :
  pid <> "" ->
  (forall f, In f (Persisted.folders (projectData (splitMediaData C pid))) ->
             ~ In f (Persisted.folders (sharedData (splitMediaData C pid))))
  /\ (forall m, In m (Persisted.mediaFiles (projectData (splitMediaData C pid))) ->
                ~ In m (Persisted.mediaFiles (sharedData (splitMediaData C pid)))).
Proof.
  intros Hp. simpl. split.
  - intros f Hf Hs. apply filter_In in Hf, Hs.
    destruct Hf as [_ Hf], Hs as [_ Hs].
    now rewrite (shared_not_project_folder _ Hp Hs) in Hf.
  - intros m Hm Hs. apply filter_In in Hm, Hs.
    destruct Hm as [_ Hm], Hs as [_ Hs].
    now rewrite (shared_not_project_file _ Hp Hs) in Hm.
Qed.

(** The catalog read back, spelled out. *)
Lemma splitThenMerge_eq (C : Persisted.t) (pid : string) :
  splitThenMerge C pid =
  Persisted.mk
    (filter isSharedFolder (Persisted.folders C)
     ++ filter (isProjectFolder pid) (Persisted.folders C))
    (filter isSharedFile (Persisted.mediaFiles C)
     ++ filter (isProjectFile pid) (Persisted.mediaFiles C)).
Proof. reflexivity. Qed.

Lemma splitThenMerge_fixed (C : Persisted.t) (pid : string) :
  pid <> "" ->
  splitThenMerge (splitThenMerge C pid) pid = splitThenMerge C pid.
Proof.
  intros Hp. rewrite !splitThenMerge_eq. simpl.
  rewrite !filter_app, !filter_filter_same.
  rewrite (filter_filter_excl isSharedFolder (isProjectFolder pid)),
          (filter_filter_excl (isProjectFolder pid) isSharedFolder),
          (filter_filter_excl isSharedFile (isProjectFile pid)),
          (filter_filter_excl (isProjectFile pid) isSharedFile).
  - now rewrite !app_nil_r.
  - intros; now apply shared_not_project_file.
  - intros; now apply project_not_shared_file with pid.
  - intros; now apply shared_not_project_folder.
  - intros; now apply project_not_shared_folder with pid.
Qed.

Lemma splitThenMerge_perm (C : Persisted.t) (pid : string) :
  pid <> "" ->
  Permutation (Persisted.folders (splitThenMerge C pid))
              (filter (folderInScope pid) (Persisted.folders C))
  /\ Permutation (Persisted.mediaFiles (splitThenMerge C pid))
                 (filter (fileInScope pid) (Persisted.mediaFiles C)).
Proof.
  intros Hp. split; apply filter_either_perm; intros.
  - now apply shared_not_project_folder.
  - now apply shared_not_project_file.
Qed.

(** C1, as stated, fails: an item of another project is not read back. *)
Lemma roundtrip_drops_other_project :
  ~ roundtrip_reproduces catalogWithOtherProject "p".
Proof.
  intros (_ & Hitems & _).
  specialize (Hitems (sampleFile "m1" None (Some "q"))).
  simpl in Hitems. tauto.
Qed.

(** With the empty string as project id the read-back catalog is not a fixed
    point either: a falsy project id is in both partitions. *)
Lemma roundtrip_empty_pid_not_fixed :
  splitThenMerge (splitThenMerge catalogWithEmptyProject "") ""
  <> splitThenMerge catalogWithEmptyProject "".
Proof. vm_compute. discriminate. Qed.

(** C1, amended: for a non-empty project id, reading back what was written
    yields, up to order (shared first, then project), exactly the folders and
    the items of the catalog that are shared or belong to the project, each
    as often as the catalog has it, and writing and reading back again
    returns the same catalog. *)
Theorem splitThenMerge_roundtrip (C : Persisted.t) (pid : string) :
  pid <> "" ->
  let R := splitThenMerge C pid in
  Permutation (Persisted.folders R)
              (filter (folderInScope pid) (Persisted.folders C))
  /\ Permutation (Persisted.mediaFiles R)
                 (filter (fileInScope pid) (Persisted.mediaFiles C))
  /\ (forall f, In f (Persisted.folders R) <->
                In f (Persisted.folders C) /\ folderInScope pid f = true)
  /\ (forall m, In m (Persisted.mediaFiles R) <->
                In m (Persisted.mediaFiles C) /\ fileInScope pid m = true)
  /\ splitThenMerge R pid = R.
Proof.
  intros Hp R. destruct (splitThenMerge_perm C Hp) as [HF HM].
  split; [exact HF|]. split; [exact HM|]. split; [|split].
  - intros f. now apply perm_filter_In.
  - intros m. now apply perm_filter_In.
  - now apply splitThenMerge_fixed.
Qed.

Lemma splitThenMerge_roundtrip_witness :
  "p" <> ""
  /\ Persisted.folders (splitThenMerge catalogOfP "p")
     = [systemFolder "s1" "ai-image"; userFolder "f2" None None;
        userFolder "f1" None (Some "p")]
  /\ splitThenMerge (splitThenMerge catalogOfP "p") "p"
     = splitThenMerge catalogOfP "p".
Proof.
  split; [discriminate|]. split; [reflexivity|].
  apply (splitThenMerge_roundtrip catalogOfP (pid := "p")). discriminate.
Defined.

(** When every entry of the catalog is shared or belongs to the project,
    nothing is lost: the claim holds as stated. *)
Corollary roundtrip_reproduces_in_scope (C : Persisted.t) (pid : string) :
  pid <> "" ->
  (forall f, In f (Persisted.folders C) -> folderInScope pid f = true) ->
  (forall m, In m (Persisted.mediaFiles C) -> fileInScope pid m = true) ->
  roundtrip_reproduces C pid.
Proof.
  intros Hp HF HM. destruct (splitThenMerge_perm C Hp) as [PF PM].
  split; [|split].
  - intros f. rewrite (perm_filter_In _ _ f PF). split; [tauto|auto].
  - intros m. rewrite (perm_filter_In _ _ m PM). split; [tauto|auto].
  - now apply splitThenMerge_fixed.
Qed.

(** C2, as stated, fails: with the empty string as project id, a folder whose
    project id is empty is written to both partitions. *)
Lemma split_overlaps_on_empty_pid :
  ~ split_disjoint catalogWithEmptyProject "".
Proof.
  intros (Hfolders & _). apply (Hfolders "f1"); simpl; auto.
Qed.

(** Nor are the partitions disjoint by id when the catalog repeats an id. *)
Lemma split_overlaps_on_twins :
  ~ split_disjoint catalogWithTwins "p".
Proof.
  intros (_ & Hfiles & _). apply (Hfiles "m1"); simpl; auto.
Qed.

(** C2, amended: for a non-empty project id and a catalog whose folder ids
    and item ids are pairwise distinct, no id is in both partitions, and a
    folder that is auto-created, not a system folder and without project id
    is in neither partition. *)
Theorem split_disjoint_by_id (C : Persisted.t) (pid : string) :
  pid <> "" ->
  NoDup (folderIds (Persisted.folders C)) ->
  NoDup (fileIds (Persisted.mediaFiles C)) ->
  split_disjoint C pid.
Proof.
  intros Hp HndF HndM. unfold split_disjoint, folderIds, fileIds. simpl.
  split; [|split; [|intros f0 Hin Hauto Hsys Hnone; split]].
  - intros x Hx Hs.
    apply in_map_iff in Hx, Hs.
    destruct Hx as (f & Hid & Hf), Hs as (g & Hid' & Hg).
    apply filter_In in Hf, Hg. destruct Hf as [Hf Hpf], Hg as [Hg Hsg].
    assert (f = g) by (eapply NoDup_map_eq; eauto; congruence). subst g.
    now rewrite (shared_not_project_folder _ Hp Hsg) in Hpf.
  - intros x Hx Hs.
    apply in_map_iff in Hx, Hs.
    destruct Hx as (f & Hid & Hf), Hs as (g & Hid' & Hg).
    apply filter_In in Hf, Hg. destruct Hf as [Hf Hpf], Hg as [Hg Hsg].
    assert (f = g) by (eapply NoDup_map_eq; eauto; congruence). subst g.
    now rewrite (shared_not_project_file _ Hp Hsg) in Hpf.
  - intros H. apply filter_In in H. destruct H as [_ H].
    unfold isProjectFolder in H. apply andb_true_iff in H. destruct H as [H _].
    apply (truthy_strictEq _ Hp) in H. congruence.
  - intros H. apply filter_In in H. destruct H as [_ H].
    unfold isSharedFolder in H. rewrite Hsys, Hnone, Hauto in H. discriminate.
Qed.

Lemma split_disjoint_by_id_witness :
  folderIds (Persisted.folders (projectData (splitMediaData catalogOfP "p")))
  = ["f1"]
  /\ folderIds (Persisted.folders (sharedData (splitMediaData catalogOfP "p")))
     = ["s1"; "f2"]
  /\ split_disjoint catalogOfP "p".
Proof.
  split; [reflexivity|]. split; [reflexivity|].
  apply split_disjoint_by_id.
  - discriminate.
  - vm_compute. repeat constructor; simpl; intuition discriminate.
  - vm_compute. repeat constructor; simpl; intuition discriminate.
Defined.

(** ** assignProjectToUnscoped *)

Lemma Forall2_map_self {A} (R : A -> A -> Prop) (g : A -> A) (l : list A) :
  (forall x, R x (g x)) -> Forall2 R l (map g l).
Proof. intros H. induction l; simpl; constructor; auto. Qed.

(** C8, as stated, fails: an item whose project id is the empty string has a
    project id, and [assignProjectToUnscoped] replaces it all the same. *)
Lemma assign_overwrites_empty_projectId :
  ~ assign_spares_any_projectId runtimeWithEmptyProjectItem "p".
Proof.
  intros [Hfiles _]. vm_compute in Hfiles.
  inversion Hfiles as [|m m' l l' [_ Hkept] _]; subst.
  assert (E := Hkept ltac:(discriminate)). discriminate E.
Qed.

(** C8, amended: after [assignProjectToUnscoped p], position by position, an
    item whose project id is absent or empty has become the same item with
    [projectId = p], a non-system folder whose project id is absent or empty
    the same folder with [projectId = p], and an item or a folder with a
    non-empty project id, as well as a system folder, is as before; the rest
    of the store is untouched. *)
Theorem assignProjectToUnscoped_stamps (r : Runtime) (pid : string) :
  let s := store r in
  let s' := store (exec (assignProjectToUnscoped pid) r) in
  Forall2 (fileAssigned pid) (Store.mediaFiles s) (Store.mediaFiles s')
  /\ Forall2 (folderAssigned pid) (Store.folders s) (Store.folders s')
  /\ Store.currentFolderId s' = Store.currentFolderId s
  /\ Store.isLoading s' = Store.isLoading s.
Proof.
  simpl. split; [|split; [|split; reflexivity]].
  - apply Forall2_map_self. intros m. unfold fileAssigned.
    destruct (truthy (MediaFile.projectId m)); split; intros; try discriminate; auto.
  - apply Forall2_map_self. intros f. unfold folderAssigned.
    destruct (truthy (MediaFolder.projectId f)), (MediaFolder.isSystem f);
      simpl; repeat split; intros; try discriminate; auto.
Qed.

(** ** loadProjectMedia *)

(** C9: [loadProjectMedia] first sets [isLoading]; whatever the store is when
    the storage load settles, [isLoading] is false afterwards; a resolved
    load replaces [mediaFiles] by the loaded items, each with the given
    project id, and a rejected load leaves [mediaFiles] as it is. *)
Theorem loadProjectMedia_isLoading (projectId : string) :
  (forall r,
      let s := store (exec (loadProjectMedia_start projectId) r) in
      Store.isLoading s = true
      /\ Store.mediaFiles s = Store.mediaFiles (store r)
      /\ Store.folders s = Store.folders (store r)
      /\ Store.currentFolderId s = Store.currentFolderId (store r))
  /\ (forall r mediaItems,
         let s := store (exec (loadProjectMedia_settle projectId
                                 (Resolved mediaItems)) r) in
         Store.isLoading s = false
         /\ Store.mediaFiles s
            = map (MediaFile.with_projectId (Some projectId)) mediaItems
         /\ Forall (fun m => MediaFile.projectId m = Some projectId)
                   (Store.mediaFiles s)
         /\ map MediaFile.id (Store.mediaFiles s) = map MediaFile.id mediaItems)
  /\ (forall r,
         let s := store (exec (loadProjectMedia_settle projectId Rejected) r) in
         Store.isLoading s = false
         /\ Store.mediaFiles s = Store.mediaFiles (store r))
  /\ (forall r loaded,
         let s := store (exec (loadProjectMedia_settle projectId loaded) r) in
         Store.isLoading s = false
         /\ Store.folders s = Store.folders (store r)
         /\ Store.currentFolderId s = Store.currentFolderId (store r)).
Proof.
  split; [|split; [|split]].
  - intros r. simpl. auto.
  - intros r mediaItems. simpl. repeat split.
    + apply Forall_forall. intros m Hm. apply in_map_iff in Hm.
      destruct Hm as (x & <- & _). reflexivity.
    + rewrite map_map. reflexivity.
  - intros r. simpl. auto.
  - intros r [mediaItems|]; simpl; auto.
Qed.

(** ** addMediaFromUrl against removeMediaFile *)

Lemma localSaveSettled_ids (e : SaveSettled) (r : Runtime) :
  fileIds (Store.mediaFiles (store (exec (localSaveSettled e) r)))
  = fileIds (Store.mediaFiles (store r)).
Proof.
  unfold fileIds.
  destruct e as [id url localPath|id thumbnailUrl thumbLocalPath|id];
    unfold localSaveSettled; try reflexivity.
  - destruct (negb (localPath =? url) && prefix "local-image://" localPath);
      [|reflexivity].
    unfold exec; simpl. rewrite map_map. apply map_ext.
    intros m. now destruct (MediaFile.id m =? id).
  - destruct (negb (thumbLocalPath =? thumbnailUrl)
              && prefix "local-image://" thumbLocalPath); [|reflexivity].
    unfold exec; simpl. rewrite map_map. apply map_ext.
    intros m. now destruct (MediaFile.id m =? id).
Qed.

Lemma localSavesSettled_ids (es : list SaveSettled) (r : Runtime) :
  fileIds (Store.mediaFiles (store (exec (localSavesSettled es) r)))
  = fileIds (Store.mediaFiles (store r)).
Proof.
  revert r. induction es as [|e rest IH]; intros r; [reflexivity|].
  change (exec (localSavesSettled (e :: rest)) r)
    with (exec (localSavesSettled rest) (exec (localSaveSettled e) r)).
  rewrite IH. apply localSaveSettled_ids.
Qed.

Lemma removeMediaFile_absent (projectId id : string) (r : Runtime) :
  ~ In id (fileIds (Store.mediaFiles (store (exec (removeMediaFile projectId id) r)))).
Proof.
  unfold fileIds, exec; simpl. intros H. apply in_map_iff in H.
  destruct H as (m & Hid & Hm). apply filter_In in Hm. destruct Hm as [_ Hm].
  apply negb_true_iff, String.eqb_neq in Hm. contradiction.
Qed.

(** C7: let [addMediaFromUrl] insert an item under the fresh id [X], and let
    [removeMediaFile] remove [X] while the background task of [X] has not
    finished (other saves may have settled in between).  Then however many
    local saves settle afterwards, with whatever results, each of them leaves
    the ids of the items in the store as they are: the ids stay what they
    were after the removal, and [X] is not among them. *)
Theorem removed_item_not_resurrected
        (uuidAt : nat -> string) (r : Runtime) (o : UrlOptions)
        (projectId : string) (before after : list SaveSettled) :
  let X := fst (addMediaFromUrl uuidAt o r) in
  let added := snd (addMediaFromUrl uuidAt o r) in
  let removed :=
    exec (removeMediaFile projectId X) (exec (localSavesSettled before) added) in
  let later := exec (localSavesSettled after) removed in
  In X (fileIds (Store.mediaFiles (store added)))
  /\ ~ In X (fileIds (Store.mediaFiles (store removed)))
  /\ (forall e r', fileIds (Store.mediaFiles (store (exec (localSaveSettled e) r')))
                   = fileIds (Store.mediaFiles (store r')))
  /\ fileIds (Store.mediaFiles (store later))
     = fileIds (Store.mediaFiles (store removed))
  /\ ~ In X (fileIds (Store.mediaFiles (store later))).
Proof.
  intros X added removed later.
  assert (Hids : fileIds (Store.mediaFiles (store later))
                 = fileIds (Store.mediaFiles (store removed)))
    by apply localSavesSettled_ids.
  split; [|split; [|split; [|split]]].
  - unfold added, X, fileIds. simpl. rewrite map_app. apply in_or_app.
    right. simpl. auto.
  - apply removeMediaFile_absent.
  - apply localSaveSettled_ids.
  - exact Hids.
  - rewrite Hids. apply removeMediaFile_absent.
Qed.

(** ** deleteFolder *)

(** C4, as stated, fails: the guard looks at the first folder of that id
    only, so a system folder that shares its id with a user folder found
    before it is deleted with it. *)
Lemma hidden_system_folder_is_deleted :
  ~ system_folder_is_kept (runtimeOf storeWithHiddenSystemFolder)
      (systemFolder "a" "upload").
Proof.
  intros H. specialize (H ltac:(simpl; auto) eq_refl 1).
  vm_compute in H. discriminate H.
Qed.

(** C4, amended: when the folder that the lookup by id finds (the first
    folder of that id, the only one when folder ids are distinct) is a
    system folder, [deleteFolder] on that id returns with the whole store as
    it was, whatever the depth the call stack allows. *)
Theorem deleteFolder_system_noop
        (stack : nat) (r : Runtime) (id : string) (target : MediaFolder.t) :
  find (fun f => MediaFolder.id f =? id) (Store.folders (store r)) = Some target ->
  MediaFolder.isSystem target = true ->
  deleteFolder stack id r = (Returned, r).
Proof.
  intros Hfind Hsys. unfold deleteFolder, bind, get. cbn [fst snd].
  rewrite Hfind. simpl. rewrite Hsys. reflexivity.
Qed.

Lemma deleteFolder_system_noop_witness :
  deleteFolder 0 "s1" (runtimeOf storeWithSystemFolder)
  = (Returned, runtimeOf storeWithSystemFolder).
Proof.
  apply (deleteFolder_system_noop 0 (runtimeOf storeWithSystemFolder) "s1"
           (target := systemFolder "s1" "ai-image")); reflexivity.
Defined.

(** *** The descendant ids *)

Lemma includes_In (l : list string) (s : string) :
  includes l s = true <-> In s l.
Proof.
  unfold includes. rewrite existsb_exists. split.
  - intros (t & Ht & E). apply String.eqb_eq in E. now subst.
  - intros H. exists s. split; [exact H|apply String.eqb_refl].
Qed.

Lemma strictEq_Some (o : option string) (s : string) :
  strictEq o s = true <-> o = Some s.
Proof.
  destruct o as [t|]; simpl; [|split; discriminate].
  rewrite String.eqb_eq. split; congruence.
Qed.

Section FlatMapOpt.
Context {A B : Type}.
Variables f g : A -> option (list B).

Lemma flatMapOpt_In (l : list A) (zs : list B) :
  flatMapOpt f l = Some zs ->
  forall y, In y zs <-> exists x ys, In x l /\ f x = Some ys /\ In y ys.
Proof.
  revert zs. induction l as [|x r IH]; simpl; intros zs H y.
  - injection H as <-. split; [contradiction|]. now intros (? & ? & [] & _).
  - destruct (f x) as [ys|] eqn:Hx; [|discriminate].
    destruct (flatMapOpt f r) as [ws|]; [|discriminate].
    injection H as <-. rewrite in_app_iff, (IH ws eq_refl y). split.
    + intros [Hy|(x' & ys' & Hin & Hf & Hy)].
      * exists x, ys. auto.
      * exists x', ys'. auto.
    + intros (x' & ys' & [<-|Hin] & Hf & Hy).
      * left. congruence.
      * right. exists x', ys'. auto.
Qed.

Lemma flatMapOpt_defined (l : list A) :
  (forall x, In x l -> exists ys, f x = Some ys) ->
  exists zs, flatMapOpt f l = Some zs.
Proof.
  induction l as [|x r IH]; simpl; intros H; [now exists []|].
  destruct (H x (or_introl eq_refl)) as [ys ->].
  destruct IH as [zs ->]; [intros; apply H; now right|].
  now exists (ys ++ zs).
Qed.

Lemma flatMapOpt_each (l : list A) (zs : list B) :
  flatMapOpt f l = Some zs -> forall x, In x l -> exists ys, f x = Some ys.
Proof.
  revert zs. induction l as [|x r IH]; simpl; intros zs H x' Hin; [contradiction|].
  destruct (f x) as [ys|] eqn:Hx; [|discriminate].
  destruct (flatMapOpt f r) as [ws|]; [|discriminate].
  destruct Hin as [<-|Hin]; [now exists ys|]. eapply IH; eauto.
Qed.

Lemma flatMapOpt_grows (l : list A) (zs : list B) :
  (forall x ys, In x l -> f x = Some ys -> g x = Some ys) ->
  flatMapOpt f l = Some zs -> flatMapOpt g l = Some zs.
Proof.
  revert zs. induction l as [|x r IH]; simpl; intros zs Hfg H; [exact H|].
  destruct (f x) as [ys|] eqn:Hx; [|discriminate].
  rewrite (Hfg x ys (or_introl eq_refl) Hx).
  destruct (flatMapOpt f r) as [ws|]; [|discriminate].
  rewrite (IH ws); [exact H| |reflexivity].
  intros; apply Hfg; auto.
Qed.
End FlatMapOpt.

(** More stack never changes the result. *)
Lemma getDescendantIds_mono (folders : list MediaFolder.t) (n m : nat) :
  n <= m ->
  forall root ids,
    getDescendantIds n folders root = Some ids ->
    getDescendantIds m folders root = Some ids.
Proof.
  revert m. induction n as [|n IH]; intros m Hle root ids H; [discriminate|].
  destruct m as [|m]; [lia|]. simpl in *.
  destruct (flatMapOpt _ _) as [below|] eqn:E in H; [|discriminate].
  erewrite flatMapOpt_grows; [exact H| |exact E].
  intros c ys _. apply IH. lia.
Qed.

(** What is returned is the set of ids under the root. *)
Lemma getDescendantIds_sound (folders : list MediaFolder.t) (n : nat) :
  forall root ids,
    getDescendantIds n folders root = Some ids ->
    forall y, In y ids <-> descendantOf folders root y.
Proof.
  induction n as [|n IH]; intros root ids H y; [discriminate|].
  simpl in H.
  destruct (flatMapOpt _ _) as [below|] eqn:E in H; [|discriminate].
  injection H as <-. simpl. rewrite (flatMapOpt_In _ _ E y). split.
  - intros [<-|(c & ys & Hc & Hys & Hy)]; [constructor|].
    apply filter_In in Hc. destruct Hc as [Hc Hp].
    apply strictEq_Some in Hp.
    apply desc_child with c; trivial. now apply (IH _ _ Hys).
  - intros D. destruct D as [|c y Hc Hp D]; [now left|]. right.
    assert (Hin : In c (filter (fun f => strictEq (MediaFolder.parentId f) root)
                               folders)).
    { apply filter_In. split; [exact Hc|now apply strictEq_Some]. }
    destruct (flatMapOpt_each _ _ E c Hin) as [ys Hys].
    exists c, ys. repeat split; trivial. now apply (IH _ _ Hys).
Qed.

(** In a forest the recursion ends: some stack depth is enough. *)
Lemma getDescendantIds_defined (folders : list MediaFolder.t) (root : string) :
  forestBelow folders root ->
  exists N ids, getDescendantIds N folders root = Some ids.
Proof.
  induction 1 as [root _ IH].
  set (children := filter (fun f => strictEq (MediaFolder.parentId f) root)
                          folders).
  assert (Hchildren : forall c, In c children ->
            childOf folders root (MediaFolder.id c)).
  { intros c Hc. apply filter_In in Hc. destruct Hc as [Hc Hp].
    exists c. repeat split; trivial. now apply strictEq_Some. }
  assert (Hall : exists N, forall c, In c children ->
            exists ids, getDescendantIds N folders (MediaFolder.id c) = Some ids).
  { clearbody children. induction children as [|c cs IHcs].
    - exists 0. contradiction.
    - destruct IHcs as [N1 H1]; [intros; apply Hchildren; now right|].
      destruct (IH _ (Hchildren c (or_introl eq_refl))) as (N2 & ids2 & H2).
      exists (Nat.max N1 N2). intros c' [<-|Hc'].
      + exists ids2. apply getDescendantIds_mono with N2; [lia|exact H2].
      + destruct (H1 c' Hc') as [ids1 Hids1]. exists ids1.
        apply getDescendantIds_mono with N1; [lia|exact Hids1]. }
  destruct Hall as [N HN].
  destruct (flatMapOpt_defined
              (fun c => getDescendantIds N folders (MediaFolder.id c))
              children HN) as [below Hbelow].
  exists (S N), (root :: below). simpl. fold children. now rewrite Hbelow.
Qed.

(** A height that decreases from parent to child makes a forest. *)
Lemma forestBelow_by_height (folders : list MediaFolder.t)
      (height : string -> nat) :
  (forall f p, In f folders -> MediaFolder.parentId f = Some p ->
               height (MediaFolder.id f) < height p) ->
  forall root, forestBelow folders root.
Proof.
  intros Hh root. remember (height root) as n eqn:E. revert root E.
  induction n as [n IH] using lt_wf_ind. intros root ->.
  constructor. intros c (f & Hf & Hp & <-).
  apply (IH (height (MediaFolder.id f))); [now apply Hh|reflexivity].
Qed.

(** *** What one call does *)

Lemma with_folderId_same (m : MediaFile.t) :
  MediaFile.folderId m = None -> MediaFile.with_folderId None m = m.
Proof. destruct m; simpl; intros ->; reflexivity. Qed.

Lemma Forall2_diag {A} (R : A -> A -> Prop) (l : list A) (x : A) :
  Forall2 R l l -> In x l -> R x x.
Proof.
  induction l as [|a l IH]; intros H Hin; [contradiction|].
  inversion H; subst. destruct Hin as [<-|Hin]; auto.
Qed.

Lemma deleteFolder_run (stack : nat) (id : string) (r : Runtime)
      (removed : list string) :
  targetIsSystem (find (fun f => MediaFolder.id f =? id)
                       (Store.folders (store r))) = false ->
  getDescendantIds stack (Store.folders (store r)) id = Some removed ->
  deleteFolder stack id r
  = (Returned, {| store := afterDelete removed (store r);
                  uuidCalls := uuidCalls r;
                  clockReads := clockReads r |}).
Proof.
  intros Hguard Hids. unfold deleteFolder, bind, get. cbn [fst snd].
  rewrite Hguard, Hids. reflexivity.
Qed.

Lemma deleteFolder_overflow (stack : nat) (id : string) (r : Runtime) :
  targetIsSystem (find (fun f => MediaFolder.id f =? id)
                       (Store.folders (store r))) = false ->
  getDescendantIds stack (Store.folders (store r)) id = None ->
  deleteFolder stack id r = (RangeError, r).
Proof.
  intros Hguard Hids. unfold deleteFolder, bind, get. cbn [fst snd].
  rewrite Hguard, Hids. reflexivity.
Qed.

Lemma afterDelete_deletion (P : string -> Prop) (removed : list string)
      (s : Store.t) :
  (forall y, In y removed <-> P y) ->
  deletion P s (afterDelete removed s).
Proof.
  intros HP.
  assert (Hset : forall o, inSet P o -> includes removed (orEmpty o) = true).
  { intros o (x & -> & Hx). simpl. apply includes_In, HP, Hx. }
  assert (Hout : forall o, ~ inSet P o -> includes removed (orEmpty o) = true ->
                           o = None).
  { intros [x|] Hn Hinc; [|reflexivity]. exfalso. apply Hn. exists x.
    split; [reflexivity|]. now apply HP, includes_In. }
  unfold deletion. simpl. split; [|split; [|split; [|split]]].
  - intros g. rewrite filter_In, negb_true_iff.
    rewrite <- HP, <- includes_In. now destruct (includes removed (MediaFolder.id g)).
  - apply Forall2_map_self. intros m. split.
    + intros Hin. now rewrite (Hset _ Hin).
    + intros Hn.
      destruct (includes removed (orEmpty (MediaFile.folderId m))) eqn:E;
        [|reflexivity].
      apply with_folderId_same. now apply Hout.
  - intros Hin. now rewrite (Hset _ Hin).
  - intros Hn.
    destruct (includes removed (orEmpty (Store.currentFolderId s))) eqn:E;
      [|reflexivity].
    symmetry. now apply Hout.
  - reflexivity.
Qed.

(** *** The cascade *)

Lemma find_id_eq (folders : list MediaFolder.t) (id : string) (F : MediaFolder.t) :
  find (fun f => MediaFolder.id f =? id) folders = Some F ->
  In F folders /\ MediaFolder.id F = id.
Proof.
  intros H. apply find_some in H. now rewrite String.eqb_eq in H.
Qed.

(** With pairwise distinct folder ids, the lookup by id finds the folder. *)
Lemma find_id_unique (folders : list MediaFolder.t) (F : MediaFolder.t) :
  NoDup (folderIds folders) -> In F folders ->
  find (fun f => MediaFolder.id f =? MediaFolder.id F) folders = Some F.
Proof.
  intros Hnd HF.
  destruct (find (fun f => MediaFolder.id f =? MediaFolder.id F) folders)
    as [G|] eqn:E.
  - destruct (find_id_eq _ _ E) as [HG Hid].
    f_equal. eapply NoDup_map_eq; eauto.
  - exfalso. apply (find_none _ _ E) in HF.
    now rewrite String.eqb_refl in HF.
Qed.

(** A folder that is its own parent exhausts any call stack. *)
Lemma getDescendantIds_loops (stack : nat) :
  getDescendantIds stack (Store.folders storeWithLoop) "a" = None.
Proof.
  induction stack as [|n IH]; [reflexivity|].
  cbn -[getDescendantIds]. simpl. simpl in IH. now rewrite IH.
Qed.

(** C3, as stated, fails: on a folder that is its own parent the call ends
    in a [RangeError] whatever stack it is given, and deletes nothing. *)
Lemma cascade_fails_on_loop :
  ~ cascade_of_present_folder (runtimeOf storeWithLoop)
      (userFolder "a" (Some "a") None).
Proof.
  intros H. destruct H as [N HN]; [simpl; auto|reflexivity|].
  destruct (HN N (le_n N)) as [Hret _].
  rewrite deleteFolder_overflow in Hret; [discriminate|reflexivity|].
  apply getDescendantIds_loops.
Qed.

(** It fails as well on a folder whose id is also the id of a system folder
    found first: the call returns at the guard. *)
Lemma cascade_fails_on_shadowed :
  ~ cascade_of_present_folder (runtimeOf storeWithShadowedFolder)
      (userFolder "a" None None).
Proof.
  intros H. destruct H as [N HN]; [simpl; auto|reflexivity|].
  destruct (HN N (le_n N)) as (_ & Hfolders & _).
  specialize (Hfolders (userFolder "a" None None)).
  simpl in Hfolders. destruct Hfolders as [Hfolders _].
  destruct Hfolders as [_ Hnot]; [auto|]. apply Hnot. constructor.
Qed.

(** C3, amended: let [F] be the folder that the lookup by id finds (the only
    folder of that id when ids are distinct), not a system folder, in a store
    whose parent links below [F] have no cycle.  Then [deleteFolder], given
    enough stack, returns, and it has removed exactly the folders whose id is
    [F]'s or transitively parented under it, has set [folderId] to null on
    exactly the items whose folder was among them, leaving the other items
    as they were, and has reset [currentFolderId] to null exactly when it
    was among them. *)
Theorem deleteFolder_cascade (r : Runtime) (F : MediaFolder.t) :
  find (fun f => MediaFolder.id f =? MediaFolder.id F)
       (Store.folders (store r)) = Some F ->
  MediaFolder.isSystem F = false ->
  forestBelow (Store.folders (store r)) (MediaFolder.id F) ->
  exists N, forall stack, N <= stack -> cascades stack r (MediaFolder.id F).
Proof.
  intros Hfind Hsys Hforest.
  destruct (getDescendantIds_defined Hforest) as (N & removed & Hids).
  exists N. intros stack Hle.
  apply getDescendantIds_mono with (m := stack) in Hids; [|exact Hle].
  unfold cascades. rewrite (deleteFolder_run _ _ _ (removed := removed)); trivial.
  - split; [reflexivity|]. simpl. apply afterDelete_deletion.
    now apply getDescendantIds_sound with stack.
  - now rewrite Hfind.
Qed.

Lemma storeWithTree_forest (root : string) :
  forestBelow (Store.folders storeWithTree) root.
Proof.
  apply forestBelow_by_height with heightInTree.
  intros f p Hf Hp. simpl in Hf.
  destruct Hf as [<-|[<-|[<-|[<-|[]]]]]; simpl in Hp;
    try discriminate; injection Hp as <-; vm_compute; lia.
Qed.

Lemma deleteFolder_cascade_witness :
  store (snd (deleteFolder 3 "a" (runtimeOf storeWithTree)))
  = Store.mk
      [sampleFile "m1" None None; sampleFile "m2" (Some "d") None;
       sampleFile "m3" None None; sampleFile "m4" (Some "gone") None]
      [userFolder "d" None None] None false
  /\ exists N, forall stack, N <= stack ->
       cascades stack (runtimeOf storeWithTree) "a".
Proof.
  split; [reflexivity|].
  apply (deleteFolder_cascade (runtimeOf storeWithTree)
           (F := userFolder "a" None None)).
  - reflexivity.
  - reflexivity.
  - apply storeWithTree_forest.
Defined.

(** *** An id that no folder carries *)

Lemma getDescendantIds_leaf (stack : nat) (folders : list MediaFolder.t)
      (X : string) :
  (forall f, In f folders -> MediaFolder.parentId f <> Some X) ->
  getDescendantIds (S stack) folders X = Some [X].
Proof.
  intros Hnone. simpl. rewrite filter_nil_when; [reflexivity|].
  intros f Hf. destruct (strictEq (MediaFolder.parentId f) X) eqn:E; [|reflexivity].
  apply strictEq_Some in E. now apply Hnone in E.
Qed.

Lemma runtimeWithOrphan_folders :
  Store.folders (store runtimeWithOrphan)
  = [MediaFolder.mk "uuid-0" "Clips" (Some "X") None false false None
                    1700000000000%Z].
Proof. reflexivity. Qed.

Lemma getDescendantIds_orphan (stack : nat) :
  getDescendantIds (S (S stack)) (Store.folders (store runtimeWithOrphan)) "X"
  = Some ["X"; "uuid-0"].
Proof. reflexivity. Qed.

(** C10, as stated, fails: a folder whose parent id is [X] is deleted by
    [deleteFolder X] although no folder has the id [X]. *)
Lemma unknown_id_deletes_orphans :
  ~ repair_of_unknown_id runtimeWithOrphan "X".
Proof.
  intros H. destruct H as [N HN].
  - rewrite runtimeWithOrphan_folders. intros f [<-|[]]. discriminate.
  - destruct (HN (S (S N))) as (_ & Hfolders & _); [lia|].
    rewrite (deleteFolder_run _ _ _ (removed := ["X"; "uuid-0"])) in Hfolders;
      [discriminate|reflexivity|apply getDescendantIds_orphan].
Qed.

(** C10, amended: when no folder has the id [X] and no folder has [X] as
    parent id, [deleteFolder X] (one stack frame is enough) leaves the
    folders as they are, sets [folderId] to null on the items that pointed
    to [X] and on no others, resets [currentFolderId] to null when it was
    [X], and so changes the store when an item pointed to [X]. *)
Theorem deleteFolder_unknown_id (r : Runtime) (X : string) (stack : nat) :
  (forall f, In f (Store.folders (store r)) -> MediaFolder.id f <> X) ->
  (forall f, In f (Store.folders (store r)) ->
             MediaFolder.parentId f <> Some X) ->
  1 <= stack ->
  repairs stack r X.
Proof.
  intros Hid Hparent Hstack. destruct stack as [|n]; [lia|].
  assert (Hguard : targetIsSystem
            (find (fun f => MediaFolder.id f =? X) (Store.folders (store r)))
          = false).
  { destruct (find _ _) as [G|] eqn:E; [|reflexivity].
    destruct (find_id_eq _ _ E) as [HG HX]. now apply Hid in HG. }
  assert (Hdel : deletion (eq X) (store r) (afterDelete [X] (store r))).
  { apply afterDelete_deletion. intros y. simpl. tauto. }
  unfold repairs.
  rewrite (deleteFolder_run _ _ _ Hguard (getDescendantIds_leaf n _ Hparent)).
  cbn [fst snd store]. split; [reflexivity|]. split; [|split; [exact Hdel|]].
  - simpl. apply filter_id_when. intros f Hf. simpl.
    apply Hid in Hf. apply String.eqb_neq in Hf.
    rewrite String.eqb_sym, Hf. reflexivity.
  - intros (m & Hm & HmX) Heq.
    destruct Hdel as (_ & Hfiles & _). rewrite Heq in Hfiles.
    destruct (@Forall2_diag _ _ _ m Hfiles Hm) as [Hmoved _].
    assert (E : m = MediaFile.with_folderId None m).
    { apply Hmoved. exists X. auto. }
    rewrite E in HmX. discriminate.
Qed.

Lemma deleteFolder_unknown_id_witness :
  store (snd (deleteFolder 1 "gone" (runtimeOf storeWithTree)))
  = Store.mk
      [sampleFile "m1" (Some "b") None; sampleFile "m2" (Some "d") None;
       sampleFile "m3" None None; sampleFile "m4" None None]
      (Store.folders storeWithTree) (Some "c") false
  /\ repairs 1 (runtimeOf storeWithTree) "gone".
Proof.
  split; [reflexivity|].
  apply deleteFolder_unknown_id.
  - simpl. intros f [<-|[<-|[<-|[<-|[]]]]]; discriminate.
  - simpl. intros f [<-|[<-|[<-|[<-|[]]]]]; discriminate.
  - lia.
Defined.

(** ** initSystemFolders *)

Section InitSystemFolders.
Variable uuidAt : nat -> string.
Variable nowAt : nat -> number.

Lemma runtime_eta (r : Runtime) :
  {| store := store r; uuidCalls := uuidCalls r + 0;
     clockReads := clockReads r + 0 |} = r.
Proof. destruct r; simpl. now rewrite !Nat.add_0_r. Qed.

(** The loop pushes one fresh system folder per missing category. *)
Lemma pushMissing_eq (folders : list MediaFolder.t) (cats : list CategoryDef) :
  forall newFolders r,
    pushMissing uuidAt nowAt folders cats newFolders r
    = (newFolders
       ++ freshSystemFolders uuidAt nowAt (uuidCalls r) (clockReads r)
                             (missingCategories folders cats),
       {| store := store r;
          uuidCalls := uuidCalls r + List.length (missingCategories folders cats);
          clockReads := clockReads r + List.length (missingCategories folders cats) |}).
Proof.
  induction cats as [|cat rest IH]; intros newFolders r; simpl.
  - now rewrite app_nil_r, runtime_eta.
  - destruct (find (isSystemOf (cat_category cat)) folders); [apply IH|].
    unfold bind. cbn [fst snd generateUUID dateNow]. rewrite IH. simpl.
    rewrite <- app_assoc, !Nat.add_succ_r. reflexivity.
Qed.

Lemma isSystemOf_fresh (u c : nat) (cats : list CategoryDef) (cat : CategoryDef) :
  In cat cats ->
  exists f, In f (freshSystemFolders uuidAt nowAt u c cats)
            /\ isSystemOf (cat_category cat) f = true
            /\ strictEq (MediaFolder.category f) (cat_category cat) = true.
Proof.
  revert u c. induction cats as [|x rest IH]; intros u c Hin; [contradiction|].
  destruct Hin as [->|Hin].
  - eexists. split; [now left|]. unfold isSystemOf. simpl.
    now rewrite String.eqb_refl.
  - destruct (IH (S u) (S c) Hin) as (f & Hf & Hsys). exists f.
    split; [now right|exact Hsys].
Qed.

Lemma find_defined {A} (p : A -> bool) (l : list A) (x : A) :
  In x l -> p x = true -> find p l <> None.
Proof.
  intros Hin Hp E. apply (find_none _ _ E) in Hin. congruence.
Qed.

(** The guard of the legacy migration never lets it run: an [ai-image]
    system folder either exists or has just been pushed. *)
Lemma hasAiImageFolder_always (folders : list MediaFolder.t) (u c : nat) :
  orElse (find (isSystemOf "ai-image") folders)
         (find (fun f => strictEq (MediaFolder.category f) "ai-image")
               (freshSystemFolders uuidAt nowAt u c
                  (missingCategories folders SYSTEM_CATEGORIES)))
  <> None.
Proof.
  unfold SYSTEM_CATEGORIES, missingCategories. simpl.
  destruct (find (isSystemOf "ai-image") folders); simpl; discriminate.
Qed.

(** The store after [initSystemFolders]: the fresh folders are appended, and
    no folder already there is touched. *)
Lemma initSystemFolders_eq (r : Runtime) :
  let missing := missingCategories (Store.folders (store r)) SYSTEM_CATEGORIES in
  let newFolders :=
    freshSystemFolders uuidAt nowAt (uuidCalls r) (clockReads r) missing in
  exec (initSystemFolders uuidAt nowAt) r
  = {| store :=
         match newFolders with
         | [] => store r
         | _ :: _ =>
             Store.set_folders (Store.folders (store r) ++ newFolders) (store r)
         end;
       uuidCalls := uuidCalls r + List.length missing;
       clockReads := clockReads r + List.length missing |}.
Proof.
  intros missing newFolders.
  unfold initSystemFolders, exec, bind, get. cbn [fst snd].
  rewrite pushMissing_eq. cbn [fst snd app]. fold missing newFolders.
  assert (Hguard := hasAiImageFolder_always (Store.folders (store r))
                      (uuidCalls r) (clockReads r)).
  fold missing newFolders in Hguard.
  destruct (find isLegacyAiFolder (Store.folders (store r))) as [legacy|].
  - destruct (orElse _ _); [|contradiction].
    unfold ret. cbn [fst snd]. now destruct newFolders.
  - unfold ret. cbn [fst snd]. now destruct newFolders.
Qed.

Lemma initSystemFolders_folders (r : Runtime) :
  Store.folders (store (exec (initSystemFolders uuidAt nowAt) r))
  = Store.folders (store r)
    ++ freshSystemFolders uuidAt nowAt (uuidCalls r) (clockReads r)
         (missingCategories (Store.folders (store r)) SYSTEM_CATEGORIES).
Proof.
  rewrite initSystemFolders_eq. cbn [store].
  destruct (freshSystemFolders _ _ _ _ _); [now rewrite app_nil_r|reflexivity].
Qed.

Lemma initSystemFolders_rest (r : Runtime) :
  let s := store r in
  let s' := store (exec (initSystemFolders uuidAt nowAt) r) in
  Store.mediaFiles s' = Store.mediaFiles s
  /\ Store.currentFolderId s' = Store.currentFolderId s
  /\ Store.isLoading s' = Store.isLoading s.
Proof.
  simpl. rewrite initSystemFolders_eq. cbn [store].
  destruct (freshSystemFolders _ _ _ _ _); simpl; auto.
Qed.

(** After a run no fixed category is missing. *)
Lemma initSystemFolders_complete (r : Runtime) :
  missingCategories
    (Store.folders (store (exec (initSystemFolders uuidAt nowAt) r)))
    SYSTEM_CATEGORIES = [].
Proof.
  rewrite initSystemFolders_folders. apply filter_nil_when. intros cat Hcat.
  match goal with |- match ?o with _ => _ end = _ =>
    destruct o eqn:E; [reflexivity|exfalso; revert E] end.
  destruct (find (isSystemOf (cat_category cat)) (Store.folders (store r)))
    as [f|] eqn:Hf.
  - destruct (find_some _ _ Hf) as [Hin Hp].
    apply find_defined with f; [apply in_or_app; now left|exact Hp].
  - assert (Hmiss : In cat (missingCategories (Store.folders (store r))
                              SYSTEM_CATEGORIES)).
    { apply filter_In. split; [exact Hcat|now rewrite Hf]. }
    destruct (isSystemOf_fresh (uuidCalls r) (clockReads r) _ _ Hmiss)
      as (g & Hg & Hp & _).
    apply find_defined with g; [apply in_or_app; now right|exact Hp].
Qed.

Lemma initSystemFolders_again (r : Runtime) :
  exec (initSystemFolders uuidAt nowAt) (exec (initSystemFolders uuidAt nowAt) r)
  = exec (initSystemFolders uuidAt nowAt) r.
Proof.
  rewrite (initSystemFolders_eq (exec (initSystemFolders uuidAt nowAt) r)).
  rewrite initSystemFolders_complete. simpl. apply runtime_eta.
Qed.

(** How many system folders of a fixed category a run adds. *)
Lemma systemCount_fresh (folders : list MediaFolder.t) (u c : nat)
      (category : string) :
  In category fixedCategories ->
  systemCount category
    (freshSystemFolders uuidAt nowAt u c
       (missingCategories folders SYSTEM_CATEGORIES))
  = match find (isSystemOf category) folders with
    | Some _ => 0
    | None => 1
    end.
Proof.
  unfold fixedCategories, SYSTEM_CATEGORIES, missingCategories. simpl.
  intros [<-|[<-|[<-|[]]]];
    destruct (find (isSystemOf "ai-image") folders),
             (find (isSystemOf "ai-video") folders),
             (find (isSystemOf "upload") folders); reflexivity.
Qed.

Lemma systemCount_app (category : string) (l l' : list MediaFolder.t) :
  systemCount category (l ++ l')
  = systemCount category l + systemCount category l'.
Proof. unfold systemCount. now rewrite filter_app, length_app. Qed.

Lemma systemCount_found (category : string) (folders : list MediaFolder.t)
      (f : MediaFolder.t) :
  find (isSystemOf category) folders = Some f ->
  1 <= systemCount category folders.
Proof.
  intros H. destruct (find_some _ _ H) as [Hin Hp]. unfold systemCount.
  assert (Hf : In f (filter (isSystemOf category) folders))
    by now apply filter_In.
  destruct (filter _ _); [contradiction|simpl; lia].
Qed.

Lemma systemCount_none (category : string) (folders : list MediaFolder.t) :
  find (isSystemOf category) folders = None ->
  systemCount category folders = 0.
Proof.
  intros H. unfold systemCount. apply find_none_filter in H. now rewrite H.
Qed.

End InitSystemFolders.

(** C5, as stated, fails: a store that already has two system folders of
    one category still has two after [initSystemFolders]. *)
Lemma init_keeps_duplicates :
  ~ init_twice_exactly_one sampleUuid sampleNow (runtimeOf storeWithTwoAiImage).
Proof.
  intros [_ Hone]. specialize (Hone "ai-image" (or_introl eq_refl)).
  vm_compute in Hone. discriminate.
Qed.

(** C5, amended: for every store, a second run of [initSystemFolders] right
    after a first one changes nothing, and after the first run every fixed
    category has at least one system folder, exactly one when the store had
    at most one before. *)
Theorem initSystemFolders_twice
        (uuidAt : nat -> string) (nowAt : nat -> number) (r : Runtime) :
  let r1 := exec (initSystemFolders uuidAt nowAt) r in
  let r2 := exec (initSystemFolders uuidAt nowAt) r1 in
  store r2 = store r1
  /\ r2 = r1
  /\ (forall c, In c fixedCategories ->
                1 <= systemCount c (Store.folders (store r1)))
  /\ (forall c, In c fixedCategories ->
                systemCount c (Store.folders (store r)) <= 1 ->
                systemCount c (Store.folders (store r1)) = 1).
Proof.
  intros r1 r2.
  assert (Hagain : r2 = r1) by apply initSystemFolders_again.
  assert (Hcount : forall c, In c fixedCategories ->
            systemCount c (Store.folders (store r1))
            = systemCount c (Store.folders (store r))
              + match find (isSystemOf c) (Store.folders (store r)) with
                | Some _ => 0
                | None => 1
                end).
  { intros c Hc. unfold r1.
    rewrite initSystemFolders_folders, systemCount_app.
    now rewrite systemCount_fresh. }
  split; [now rewrite Hagain|]. split; [exact Hagain|]. split.
  - intros c Hc. rewrite (Hcount c Hc).
    destruct (find (isSystemOf c) (Store.folders (store r))) as [f|] eqn:E.
    + apply systemCount_found in E. lia.
    + lia.
  - intros c Hc Hle. rewrite (Hcount c Hc).
    destruct (find (isSystemOf c) (Store.folders (store r))) as [f|] eqn:E.
    + apply systemCount_found in E. lia.
    + apply systemCount_none in E. lia.
Qed.

Lemma initSystemFolders_twice_witness :
  let r1 := exec (initSystemFolders sampleUuid sampleNow)
                 (runtimeOf storeWithSystemFolder) in
  fixedCategories = ["ai-image"; "ai-video"; "upload"]
  /\ map MediaFolder.id (Store.folders (store r1))
     = ["s1"; "f1"; "uuid-0"; "uuid-1"]
  /\ store (exec (initSystemFolders sampleUuid sampleNow) r1) = store r1
  /\ systemCount "ai-image" (Store.folders (store r1)) = 1
  /\ systemCount "ai-video" (Store.folders (store r1)) = 1
  /\ systemCount "upload" (Store.folders (store r1)) = 1.
Proof.
  intros r1.
  destruct (initSystemFolders_twice sampleUuid sampleNow
              (runtimeOf storeWithSystemFolder)) as (Hsame & _ & _ & Hone).
  split; [reflexivity|]. split; [reflexivity|]. split; [exact Hsame|].
  repeat split; apply Hone; vm_compute; auto.
Defined.

(** C6: the legacy folder is not promoted.  In a store with a legacy folder
    and no [ai-image] system folder, [initSystemFolders] leaves every folder
    as it is, the legacy folder included, which stays a non-system folder,
    and appends a fresh [ai-image] system folder after them. *)
Theorem legacy_folder_not_promoted
        (uuidAt : nat -> string) (nowAt : nat -> number) (r : Runtime)
        (legacy : MediaFolder.t) :
  In legacy (Store.folders (store r)) ->
  isLegacyAiFolder legacy = true ->
  find (isSystemOf "ai-image") (Store.folders (store r)) = None ->
  let s' := store (exec (initSystemFolders uuidAt nowAt) r) in
  In legacy (Store.folders s')
  /\ MediaFolder.isSystem legacy = false
  /\ exists fresh others,
       Store.folders s' = Store.folders (store r) ++ fresh :: others
       /\ MediaFolder.id fresh = uuidAt (uuidCalls r)
       /\ MediaFolder.isSystem fresh = true
       /\ MediaFolder.category fresh = Some "ai-image".
Proof.
  intros Hin Hlegacy Hnone s'. unfold s'.
  rewrite initSystemFolders_folders. split; [|split].
  - apply in_or_app. now left.
  - unfold isLegacyAiFolder in Hlegacy.
    apply andb_true_iff in Hlegacy. destruct Hlegacy as [Hlegacy _].
    apply andb_true_iff in Hlegacy. destruct Hlegacy as [_ Hsys].
    now apply negb_true_iff in Hsys.
  - unfold SYSTEM_CATEGORIES, missingCategories. simpl. rewrite Hnone. simpl.
    eexists. eexists. split; [reflexivity|]. simpl. auto.
Qed.

Lemma legacy_folder_not_promoted_witness :
  Store.folders (store (exec (initSystemFolders sampleUuid sampleNow)
                             (runtimeOf storeWithLegacy)))
  = [legacyFolder;
     MediaFolder.mk "uuid-0" "AI图片" None None true false (Some "ai-image")
                    1700000000000%Z;
     MediaFolder.mk "uuid-1" "AI视频" None None true false (Some "ai-video")
                    1700000000001%Z;
     MediaFolder.mk "uuid-2" "上传文件" None None true false (Some "upload")
                    1700000000002%Z]
  /\ In legacyFolder
        (Store.folders (store (exec (initSystemFolders sampleUuid sampleNow)
                                    (runtimeOf storeWithLegacy))))
  /\ MediaFolder.isSystem legacyFolder = false.
Proof.
  split; [reflexivity|].
  destruct (@legacy_folder_not_promoted sampleUuid sampleNow
              (runtimeOf storeWithLegacy) legacyFolder)
    as (Hin & Hsys & _).
  - simpl. auto.
  - reflexivity.
  - reflexivity.
  - split; [exact Hin|exact Hsys].
Defined.

(** With pairwise distinct folder ids the guard protects every system folder
    of the store. *)
Lemma deleteFolder_system_noop_distinct
      (stack : nat) (r : Runtime) (F : MediaFolder.t) :
  NoDup (folderIds (Store.folders (store r))) ->
  In F (Store.folders (store r)) ->
  MediaFolder.isSystem F = true ->
  deleteFolder stack (MediaFolder.id F) r = (Returned, r).
Proof.
  intros Hnd HF Hsys. unfold deleteFolder, bind, get. cbn [fst snd].
  rewrite (@find_id_unique _ _ Hnd HF). simpl. now rewrite Hsys.
Qed.

(** * Further properties of the store *)

(** ** The partitioner, continued *)

Lemma strictEq_inj (o : option string) (p q : string) :
  strictEq o p = true -> strictEq o q = true -> p = q.
Proof.
  intros Hp Hq. apply strictEq_Some in Hp, Hq. congruence.
Qed.

(** X1: for a non-empty project id, splitting the catalog that was read back
    gives the very two partitions it was read from: what is written again
    after a load is what was stored. *)
Theorem split_after_roundtrip (C : Persisted.t) (pid : string) :
  pid <> "" ->
  splitMediaData (splitThenMerge C pid) pid = splitMediaData C pid.
Proof.
  intros Hp. unfold splitMediaData. rewrite splitThenMerge_eq. simpl.
  rewrite !filter_app, !filter_filter_same.
  rewrite (filter_filter_excl isSharedFolder (isProjectFolder pid)),
          (filter_filter_excl (isProjectFolder pid) isSharedFolder),
          (filter_filter_excl isSharedFile (isProjectFile pid)),
          (filter_filter_excl (isProjectFile pid) isSharedFile).
  - now rewrite !app_nil_r.
  - intros; now apply shared_not_project_file.
  - intros; now apply project_not_shared_file with pid.
  - intros; now apply shared_not_project_folder.
  - intros; now apply project_not_shared_folder with pid.
Qed.

Lemma split_after_roundtrip_witness :
  splitMediaData (splitThenMerge catalogOfP "p") "p"
  = splitMediaData catalogOfP "p".
Proof. apply split_after_roundtrip. discriminate. Defined.

(** X2: the project partitions written for two different project ids have
    no folder and no item in common. *)
Theorem project_partitions_exclusive (C : Persisted.t) (p q : string) :
  p <> q ->
  (forall f, In f (Persisted.folders (projectData (splitMediaData C p))) ->
             ~ In f (Persisted.folders (projectData (splitMediaData C q))))
  /\ (forall m, In m (Persisted.mediaFiles (projectData (splitMediaData C p))) ->
                ~ In m (Persisted.mediaFiles (projectData (splitMediaData C q)))).
Proof.
  intros Hpq. simpl. split.
  - intros f Hp Hq. apply filter_In in Hp, Hq.
    destruct Hp as [_ Hp], Hq as [_ Hq]. unfold isProjectFolder in *.
    apply andb_true_iff in Hp, Hq. destruct Hp as [Hp _], Hq as [Hq _].
    apply Hpq. eapply strictEq_inj; eauto.
  - intros m Hp Hq. apply filter_In in Hp, Hq.
    destruct Hp as [_ Hp], Hq as [_ Hq].
    apply Hpq. eapply strictEq_inj; eauto.
Qed.

Lemma project_partitions_exclusive_witness :
  Persisted.mediaFiles (projectData (splitMediaData catalogOfP "p"))
  = [sampleFile "m1" (Some "f1") (Some "p")]
  /\ Persisted.mediaFiles (projectData (splitMediaData catalogOfP "q"))
     = [sampleFile "m3" None (Some "q")]
  /\ forall m,
       In m (Persisted.mediaFiles (projectData (splitMediaData catalogOfP "p"))) ->
       ~ In m (Persisted.mediaFiles (projectData (splitMediaData catalogOfP "q"))).
Proof.
  split; [reflexivity|]. split; [reflexivity|].
  apply (project_partitions_exclusive catalogOfP (p := "p") (q := "q")).
  discriminate.
Defined.

(** X3: the catalog read back for one project holds nothing of another:
    split for a different, non-empty project id, it gives an empty project
    partition, and the shared partition that was read. *)
Theorem roundtrip_forgets_other_projects (C : Persisted.t) (p q : string) :
  p <> "" -> q <> "" -> q <> p ->
  splitMediaData (splitThenMerge C p) q
  = {| projectData := Persisted.mk [] [];
       sharedData := sharedData (splitMediaData C p) |}.
Proof.
  intros Hp Hq Hqp. unfold splitMediaData. rewrite splitThenMerge_eq. simpl.
  rewrite !filter_app, !filter_filter_same.
  rewrite (filter_filter_excl (isProjectFolder q) isSharedFolder),
          (filter_filter_excl isSharedFolder (isProjectFolder p)),
          (filter_filter_excl (isProjectFile q) isSharedFile),
          (filter_filter_excl isSharedFile (isProjectFile p)).
  - rewrite (filter_filter_excl (isProjectFolder q) (isProjectFolder p)),
            (filter_filter_excl (isProjectFile q) (isProjectFile p)).
    + now rewrite !app_nil_r.
    + intros m Hm. destruct (isProjectFile q m) eqn:E; [|reflexivity].
      exfalso. apply Hqp. eapply strictEq_inj; eauto.
    + intros f Hf. destruct (isProjectFolder q f) eqn:E; [|reflexivity].
      exfalso. apply Hqp. unfold isProjectFolder in *.
      apply andb_true_iff in Hf, E. destruct Hf as [Hf _], E as [E _].
      eapply strictEq_inj; eauto.
  - intros; now apply project_not_shared_file with p.
  - intros; now apply shared_not_project_file.
  - intros; now apply project_not_shared_folder with p.
  - intros; now apply shared_not_project_folder.
Qed.

Lemma roundtrip_forgets_other_projects_witness :
  Persisted.mediaFiles (projectData (splitMediaData catalogOfP "q"))
  = [sampleFile "m3" None (Some "q")]
  /\ splitMediaData (splitThenMerge catalogOfP "p") "q"
     = {| projectData := Persisted.mk [] [];
          sharedData := sharedData (splitMediaData catalogOfP "p") |}.
Proof.
  split; [reflexivity|].
  apply roundtrip_forgets_other_projects; discriminate.
Defined.

(** ** Items: adding, removing, renaming, moving *)

Lemma store_eta (s : Store.t) :
  Store.mk (Store.mediaFiles s) (Store.folders s) (Store.currentFolderId s)
           (Store.isLoading s) = s.
Proof. now destruct s. Qed.

Lemma runtime_store_eta (r : Runtime) (s : Store.t) :
  s = store r ->
  {| store := s; uuidCalls := uuidCalls r; clockReads := clockReads r |} = r.
Proof. intros ->. now destruct r. Qed.

Lemma map_fixed {A} (g : A -> A) (l : list A) :
  (forall x, In x l -> g x = x) -> map g l = l.
Proof.
  intros H. rewrite <- (map_id l) at 2. now apply map_ext_in.
Qed.

Lemma not_in_fileIds (id : string) (l : list MediaFile.t) (m : MediaFile.t) :
  ~ In id (fileIds l) -> In m l -> (MediaFile.id m =? id) = false.
Proof.
  intros Hn Hm. apply String.eqb_neq. intros <-. apply Hn. now apply in_map.
Qed.

Lemma not_in_folderIds (id : string) (l : list MediaFolder.t) (f : MediaFolder.t) :
  ~ In id (folderIds l) -> In f l -> (MediaFolder.id f =? id) = false.
Proof.
  intros Hn Hf. apply String.eqb_neq. intros <-. apply Hn. now apply in_map.
Qed.

Lemma removeMediaFile_store (projectId id : string) (r : Runtime) :
  store (exec (removeMediaFile projectId id) r)
  = Store.set_mediaFiles
      (filter (fun media => negb (MediaFile.id media =? id))
              (Store.mediaFiles (store r)))
      (store r).
Proof. reflexivity. Qed.

Lemma filter_other_ids (id : string) (l : list MediaFile.t) :
  ~ In id (fileIds l) ->
  filter (fun media => negb (MediaFile.id media =? id)) l = l.
Proof.
  intros Hn. apply filter_id_when. intros m Hm.
  now rewrite (@not_in_fileIds _ _ _ Hn Hm).
Qed.

(** X4: [removeMediaFile] on an id that no item of the store carries leaves
    the store, and the whole runtime, as it is. *)
Theorem removeMediaFile_unknown_id (projectId id : string) (r : Runtime) :
  ~ In id (fileIds (Store.mediaFiles (store r))) ->
  exec (removeMediaFile projectId id) r = r.
Proof.
  intros Hn. unfold exec, removeMediaFile, set. cbn [snd].
  apply runtime_store_eta. unfold Store.set_mediaFiles.
  rewrite (@filter_other_ids _ _ Hn). apply store_eta.
Qed.

Lemma removeMediaFile_unknown_id_witness :
  exec (removeMediaFile "p" "m9") (runtimeOf storeWithTree)
  = runtimeOf storeWithTree.
Proof.
  apply removeMediaFile_unknown_id. simpl. intuition discriminate.
Defined.

(** X5: adding an item, by [addMediaFile] or by [addMediaFromUrl], and then
    removing the id that was returned gives back the store as it was,
    provided the fresh id is not the id of an item already there. *)
Theorem add_then_remove_restores
        (uuidAt : nat -> string) (r : Runtime) (projectId : string)
        (file : MediaFile.t) (o : UrlOptions) :
  ~ In (uuidAt (uuidCalls r)) (fileIds (Store.mediaFiles (store r))) ->
  store (exec (removeMediaFile projectId
                 (MediaFile.id (fst (addMediaFile uuidAt projectId file r))))
              (snd (addMediaFile uuidAt projectId file r)))
  = store r
  /\ store (exec (removeMediaFile projectId (fst (addMediaFromUrl uuidAt o r)))
                 (snd (addMediaFromUrl uuidAt o r)))
     = store r.
Proof.
  intros Hfresh. split.
  - rewrite removeMediaFile_store. unfold addMediaFile, bind, set, ret.
    cbn [fst snd generateUUID store MediaFile.id Store.mediaFiles
         Store.set_mediaFiles].
    unfold Store.set_mediaFiles. simpl.
    rewrite filter_app, (@filter_other_ids _ _ Hfresh). simpl.
    rewrite String.eqb_refl. simpl. rewrite app_nil_r. apply store_eta.
  - rewrite removeMediaFile_store. unfold addMediaFromUrl, bind, set, ret.
    cbn [fst snd generateUUID store MediaFile.id Store.mediaFiles
         Store.set_mediaFiles].
    unfold Store.set_mediaFiles. simpl.
    rewrite filter_app, (@filter_other_ids _ _ Hfresh). simpl.
    rewrite String.eqb_refl. simpl. rewrite app_nil_r. apply store_eta.
Qed.

Lemma add_then_remove_restores_witness :
  fst (addMediaFromUrl sampleUuid
         {| opt_url := "https://example.com/a.png"; opt_name := "a";
            opt_type := image; opt_source := ai_image;
            opt_thumbnailUrl := None; opt_duration := None;
            opt_folderId := Some "b"; opt_projectId := Some "p" |}
         (runtimeOf storeWithTree)) = "uuid-0"
  /\ store (exec (removeMediaFile "p" "uuid-0")
              (snd (addMediaFromUrl sampleUuid
                      {| opt_url := "https://example.com/a.png"; opt_name := "a";
                         opt_type := image; opt_source := ai_image;
                         opt_thumbnailUrl := None; opt_duration := None;
                         opt_folderId := Some "b"; opt_projectId := Some "p" |}
                      (runtimeOf storeWithTree))))
     = storeWithTree.
Proof.
  split; [reflexivity|].
  apply (add_then_remove_restores sampleUuid (runtimeOf storeWithTree) "p"
           (sampleFile "" None None)).
  simpl. intuition discriminate.
Defined.



(** ** getOrCreateCategoryFolder *)

Lemma find_app_none {A} (p : A -> bool) (l l' : list A) :
  find p l = None -> find p (l ++ l') = find p l'.
Proof.
  induction l as [|x l IH]; simpl; [reflexivity|].
  destruct (p x); [discriminate|exact IH].
Qed.

Lemma isSystemOf_created (category id name : string) (createdAt : number) :
  isSystemOf category
    (MediaFolder.mk id name None None true false (Some category) createdAt)
  = true.
Proof. unfold isSystemOf. simpl. apply String.eqb_refl. Qed.

(** What a call does, by whether the category has a system folder. *)
Lemma getOrCreateCategoryFolder_found
      (uuidAt : nat -> string) (nowAt : nat -> number) (category : string)
      (r : Runtime) (existing : MediaFolder.t) :
  find (isSystemOf category) (Store.folders (store r)) = Some existing ->
  getOrCreateCategoryFolder uuidAt nowAt category r
  = (MediaFolder.id existing, r).
Proof.
  intros H. unfold getOrCreateCategoryFolder, bind, get. cbn [fst snd].
  now rewrite H.
Qed.

Lemma getOrCreateCategoryFolder_created
      (uuidAt : nat -> string) (nowAt : nat -> number) (category : string)
      (r : Runtime) :
  find (isSystemOf category) (Store.folders (store r)) = None ->
  exists name,
    getOrCreateCategoryFolder uuidAt nowAt category r
    = (uuidAt (uuidCalls r),
       {| store :=
            Store.set_folders
              (Store.folders (store r)
               ++ [MediaFolder.mk (uuidAt (uuidCalls r)) name None None true
                                  false (Some category) (nowAt (clockReads r))])
              (store r);
          uuidCalls := S (uuidCalls r);
          clockReads := S (clockReads r) |}).
Proof.
  intros H. unfold getOrCreateCategoryFolder, bind, get. cbn [fst snd].
  rewrite H. eexists. reflexivity.
Qed.

(** X7: [getOrCreateCategoryFolder] returns the id of a system folder of the
    category that is in the store when it returns, and asking again returns
    the same id and changes nothing. *)
Theorem getOrCreateCategoryFolder_stable
        (uuidAt : nat -> string) (nowAt : nat -> number) (category : string)
        (r : Runtime) :
  let id := fst (getOrCreateCategoryFolder uuidAt nowAt category r) in
  let r' := snd (getOrCreateCategoryFolder uuidAt nowAt category r) in
  (exists f, In f (Store.folders (store r'))
             /\ MediaFolder.id f = id
             /\ isSystemOf category f = true)
  /\ getOrCreateCategoryFolder uuidAt nowAt category r' = (id, r').
Proof.
  destruct (find (isSystemOf category) (Store.folders (store r)))
    as [existing|] eqn:E.
  - rewrite (@getOrCreateCategoryFolder_found uuidAt nowAt _ _ _ E). simpl.
    split.
    + exists existing. destruct (find_some _ _ E). auto.
    + now apply getOrCreateCategoryFolder_found.
  - destruct (@getOrCreateCategoryFolder_created uuidAt nowAt _ _ E)
      as [name ->]. cbn [fst snd]. split.
    + eexists. split; [simpl; apply in_or_app; right; left; reflexivity|].
      split; [reflexivity|apply isSystemOf_created].
    + match goal with |- getOrCreateCategoryFolder _ _ _ ?r1 = _ =>
        assert (F : find (isSystemOf category) (Store.folders (store r1))
                    = Some (MediaFolder.mk (uuidAt (uuidCalls r)) name None None
                              true false (Some category) (nowAt (clockReads r))))
      end.
      { simpl. rewrite (@find_app_none _ _ _ _ E). simpl.
        now rewrite isSystemOf_created. }
      now rewrite (@getOrCreateCategoryFolder_found uuidAt nowAt _ _ _ F).
Qed.

(** X8: once [initSystemFolders] has run, [getOrCreateCategoryFolder] on a
    category of the fixed set finds its folder: it creates nothing and draws
    no id. *)
Theorem getOrCreateCategoryFolder_after_init
        (uuidAt : nat -> string) (nowAt : nat -> number) (category : string)
        (r : Runtime) :
  In category fixedCategories ->
  let r1 := exec (initSystemFolders uuidAt nowAt) r in
  snd (getOrCreateCategoryFolder uuidAt nowAt category r1) = r1
  /\ exists f, In f (Store.folders (store r1))
               /\ isSystemOf category f = true
               /\ fst (getOrCreateCategoryFolder uuidAt nowAt category r1)
                  = MediaFolder.id f.
Proof.
  intros Hc r1.
  destruct (find (isSystemOf category) (Store.folders (store r1)))
    as [existing|] eqn:E.
  - rewrite (@getOrCreateCategoryFolder_found uuidAt nowAt _ _ _ E).
    split; [reflexivity|]. exists existing.
    destruct (find_some _ _ E). auto.
  - exfalso. apply systemCount_none in E.
    assert (Hcount := systemCount_app category (Store.folders (store r))
              (freshSystemFolders uuidAt nowAt (uuidCalls r) (clockReads r)
                 (missingCategories (Store.folders (store r)) SYSTEM_CATEGORIES))).
    unfold r1 in E. rewrite initSystemFolders_folders in E.
    rewrite Hcount, (systemCount_fresh uuidAt nowAt _ _ _ Hc) in E.
    destruct (find (isSystemOf category) (Store.folders (store r))) eqn:F.
    + apply systemCount_found in F. lia.
    + lia.
Qed.

Lemma getOrCreateCategoryFolder_after_init_witness :
  getOrCreateCategoryFolder sampleUuid sampleNow "ai-video"
    (exec (initSystemFolders sampleUuid sampleNow) (runtimeOf storeWithLegacy))
  = ("uuid-1",
     exec (initSystemFolders sampleUuid sampleNow) (runtimeOf storeWithLegacy))
  /\ snd (getOrCreateCategoryFolder sampleUuid sampleNow "ai-video"
            (exec (initSystemFolders sampleUuid sampleNow)
                  (runtimeOf storeWithLegacy)))
     = exec (initSystemFolders sampleUuid sampleNow) (runtimeOf storeWithLegacy).
Proof.
  split; [reflexivity|].
  apply (@getOrCreateCategoryFolder_after_init sampleUuid sampleNow "ai-video"
           (runtimeOf storeWithLegacy)).
  vm_compute. auto.
Defined.

(** ** Project assignment and what is persisted *)

Lemma truthy_Some (p : string) : p <> "" -> truthy (Some p) = true.
Proof. intros H. simpl. now apply negb_true_iff, String.eqb_neq. Qed.

Lemma assigned_file_truthy (p : string) (m : MediaFile.t) :
  p <> "" ->
  truthy (MediaFile.projectId
            (if truthy (MediaFile.projectId m) then m
             else MediaFile.with_projectId (Some p) m)) = true.
Proof.
  intros Hp. destruct (truthy (MediaFile.projectId m)) eqn:E; [exact E|].
  now apply truthy_Some.
Qed.

Lemma assigned_folder_scoped (p : string) (f : MediaFolder.t) :
  p <> "" ->
  let f' := if truthy (MediaFolder.projectId f) || MediaFolder.isSystem f
            then f else MediaFolder.with_projectId (Some p) f in
  truthy (MediaFolder.projectId f') || MediaFolder.isSystem f' = true.
Proof.
  intros Hp.
  destruct (truthy (MediaFolder.projectId f) || MediaFolder.isSystem f) eqn:E;
    simpl; [exact E|].
  apply orb_true_iff. left. now apply negb_true_iff, String.eqb_neq.
Qed.

(** X9: the assignment is one-way.  After [assignProjectToUnscoped p] with a
    non-empty [p], a further [assignProjectToUnscoped q], for any [q],
    changes nothing: no item and no folder is moved to another project. *)
Theorem assignProjectToUnscoped_final (r : Runtime) (p q : string) :
  p <> "" ->
  exec (assignProjectToUnscoped q) (exec (assignProjectToUnscoped p) r)
  = exec (assignProjectToUnscoped p) r.
Proof.
  intros Hp. unfold exec, assignProjectToUnscoped, set. cbn [snd store
    uuidCalls clockReads Store.mediaFiles Store.folders Store.currentFolderId
    Store.isLoading].
  f_equal. f_equal.
  - apply map_fixed. intros m' Hm'. apply in_map_iff in Hm'.
    destruct Hm' as (m & <- & _). now rewrite assigned_file_truthy.
  - apply map_fixed. intros f' Hf'. apply in_map_iff in Hf'.
    destruct Hf' as (f & <- & _). now rewrite assigned_folder_scoped.
Qed.

Lemma assignProjectToUnscoped_final_witness :
  Store.mediaFiles
    (store (exec (assignProjectToUnscoped "q")
                 (exec (assignProjectToUnscoped "p") (runtimeOf storeWithTree))))
  = [sampleFile "m1" (Some "b") (Some "p"); sampleFile "m2" (Some "d") (Some "p");
     sampleFile "m3" None (Some "p"); sampleFile "m4" (Some "gone") (Some "p")]
  /\ exec (assignProjectToUnscoped "q")
          (exec (assignProjectToUnscoped "p") (runtimeOf storeWithTree))
     = exec (assignProjectToUnscoped "p") (runtimeOf storeWithTree).
Proof.
  split; [reflexivity|]. apply assignProjectToUnscoped_final. discriminate.
Defined.

Lemma persistedItem_projectId (m : MediaFile.t) :
  MediaFile.projectId (persistedItem m) = MediaFile.projectId m.
Proof. reflexivity. Qed.

(** X10: after [assignProjectToUnscoped p] with a non-empty [p], nothing of
    the user's is left in the shared partition of what is persisted: whatever
    project it is split for, the shared partition holds no item, and only
    system folders. *)
Theorem assignProjectToUnscoped_isolates (r : Runtime) (p q : string) :
  p <> "" ->
  let C := partialize (store (exec (assignProjectToUnscoped p) r)) in
  Persisted.mediaFiles (sharedData (splitMediaData C q)) = []
  /\ forall f, In f (Persisted.folders (sharedData (splitMediaData C q))) ->
               MediaFolder.isSystem f = true.
Proof.
  intros Hp. simpl. split.
  - apply filter_nil_when. intros m' Hm'. apply in_map_iff in Hm'.
    destruct Hm' as (m1 & <- & Hm1). apply filter_In in Hm1.
    destruct Hm1 as [Hm1 _]. apply in_map_iff in Hm1.
    destruct Hm1 as (m & <- & _). unfold isSharedFile.
    rewrite persistedItem_projectId. now rewrite assigned_file_truthy.
  - intros f' Hf'. apply filter_In in Hf'. destruct Hf' as [Hin Hshared].
    apply in_map_iff in Hin. destruct Hin as (f & <- & _).
    pose proof (assigned_folder_scoped f Hp) as Hscoped. simpl in Hscoped.
    unfold isSharedFolder in Hshared.
    destruct (MediaFolder.isSystem _); [reflexivity|].
    rewrite orb_false_r in Hscoped. rewrite Hscoped in Hshared. discriminate.
Qed.

Lemma assignProjectToUnscoped_isolates_witness :
  Persisted.mediaFiles
    (sharedData (splitMediaData (partialize storeWithSystemFolder) "p"))
  = [persistedItem (sampleFile "m1" (Some "s1") None)]
  /\ Persisted.folders
       (sharedData
          (splitMediaData
             (partialize (store (exec (assignProjectToUnscoped "p")
                                      (runtimeOf storeWithSystemFolder)))) "p"))
     = [systemFolder "s1" "ai-image"]
  /\ Persisted.mediaFiles
       (sharedData
          (splitMediaData
             (partialize (store (exec (assignProjectToUnscoped "p")
                                      (runtimeOf storeWithSystemFolder)))) "p"))
     = [].
Proof.
  split; [reflexivity|]. split; [reflexivity|].
  apply (assignProjectToUnscoped_isolates (runtimeOf storeWithSystemFolder)
           (p := "p") "p").
  discriminate.
Defined.

(** X11: a folder made by [addFolder] is persisted in one place.  Made for a
    non-empty project id, it is in that project's partition and not in the
    shared one; made without project id, it is in the shared partition and
    in no partition of a non-empty project id. *)
Theorem addFolder_partition
        (uuidAt : nat -> string) (nowAt : nat -> number) (r : Runtime)
        (name : string) (parentId projectId : option string) :
  let C := partialize
             (store (exec (addFolder uuidAt nowAt name parentId projectId) r)) in
  let created :=
    MediaFolder.mk (uuidAt (uuidCalls r)) name parentId projectId false
                   (truthy projectId) None (nowAt (clockReads r)) in
  fst (addFolder uuidAt nowAt name parentId projectId r) = MediaFolder.id created
  /\ In created (Persisted.folders C)
  /\ (forall p, p <> "" -> projectId = Some p ->
        In created (Persisted.folders (projectData (splitMediaData C p)))
        /\ ~ In created (Persisted.folders (sharedData (splitMediaData C p))))
  /\ (truthy projectId = false ->
        forall q,
          In created (Persisted.folders (sharedData (splitMediaData C q)))
          /\ (q <> "" ->
              ~ In created (Persisted.folders (projectData (splitMediaData C q))))).
Proof.
  intros C created.
  assert (Hin : In created (Persisted.folders C)).
  { simpl. apply in_or_app. right. now left. }
  split; [reflexivity|]. split; [exact Hin|]. split.
  - intros p Hp ->.
    assert (Hproj : isProjectFolder p created = true).
    { unfold isProjectFolder. simpl. now rewrite String.eqb_refl. }
    split.
    + apply filter_In. auto.
    + intros H. apply filter_In in H. destruct H as [_ H].
      now rewrite (project_not_shared_folder _ Hp Hproj) in H.
  - intros Hfalsy q.
    assert (Hshared : isSharedFolder created = true).
    { unfold isSharedFolder. simpl. now rewrite Hfalsy. }
    split.
    + apply filter_In. auto.
    + intros Hq H. apply filter_In in H. destruct H as [_ H].
      now rewrite (shared_not_project_folder _ Hq Hshared) in H.
Qed.

(** ** deleteFolder, continued *)

Lemma deleteFolder_guarded (stack : nat) (id : string) (r : Runtime) :
  targetIsSystem (find (fun f => MediaFolder.id f =? id)
                       (Store.folders (store r))) = true ->
  deleteFolder stack id r = (Returned, r).
Proof.
  intros G. unfold deleteFolder, bind, get. cbn [fst snd]. now rewrite G.
Qed.

(** The three ways a call ends: at the guard, in a [RangeError], or with the
    folders under the id deleted. *)
Lemma deleteFolder_cases (stack : nat) (id : string) (r : Runtime) :
  (targetIsSystem (find (fun f => MediaFolder.id f =? id)
                        (Store.folders (store r))) = true
   /\ deleteFolder stack id r = (Returned, r))
  \/ deleteFolder stack id r = (RangeError, r)
  \/ exists removed,
       targetIsSystem (find (fun f => MediaFolder.id f =? id)
                            (Store.folders (store r))) = false
       /\ getDescendantIds stack (Store.folders (store r)) id = Some removed
       /\ deleteFolder stack id r
          = (Returned, {| store := afterDelete removed (store r);
                          uuidCalls := uuidCalls r;
                          clockReads := clockReads r |}).
Proof.
  destruct (targetIsSystem (find (fun f => MediaFolder.id f =? id)
                                 (Store.folders (store r)))) eqn:G.
  - left. split; [reflexivity|]. now apply deleteFolder_guarded.
  - destruct (getDescendantIds stack (Store.folders (store r)) id)
      as [removed|] eqn:D.
    + right. right. exists removed. repeat split; trivial.
      now apply deleteFolder_run.
    + right. left. now apply deleteFolder_overflow.
Qed.

(** A child of a descendant is a descendant. *)
Lemma descendantOf_child (folders : list MediaFolder.t) (root p : string)
      (f : MediaFolder.t) :
  descendantOf folders root p ->
  In f folders -> MediaFolder.parentId f = Some p ->
  descendantOf folders root (MediaFolder.id f).
Proof.
  intros D Hf Hp. induction D as [root|root g y Hg Hgp D IH].
  - apply desc_child with f; trivial. constructor.
  - apply desc_child with g; trivial. now apply IH.
Qed.

(** A descendant other than the root is the id of a folder with a parent. *)
Lemma descendantOf_inv (folders : list MediaFolder.t) (root y : string) :
  descendantOf folders root y ->
  y = root
  \/ exists f p, In f folders /\ MediaFolder.id f = y
                 /\ MediaFolder.parentId f = Some p.
Proof.
  induction 1 as [root|root g y Hg Hgp D IH]; [now left|].
  right. destruct IH as [->|IH]; [|exact IH]. now exists g, root.
Qed.

Lemma includes_false (l : list string) (s : string) :
  includes l s = false <-> ~ In s l.
Proof.
  rewrite <- includes_In. destruct (includes l s); split; congruence.
Qed.

Lemma afterDelete_references (removed : list string) (root : string)
      (s : Store.t) :
  (forall y, In y removed <-> descendantOf (Store.folders s) root y) ->
  referencesResolved s -> referencesResolved (afterDelete removed s).
Proof.
  intros Hrem [Hitems Hfolders].
  assert (Hkept : forall x, In x (folderIds (Store.folders s)) ->
            includes removed x = false ->
            In x (folderIds (Store.folders (afterDelete removed s)))).
  { intros x Hx Hout. apply in_map_iff in Hx. destruct Hx as (g & <- & Hg).
    apply in_map. apply filter_In. split; [exact Hg|now rewrite Hout]. }
  split.
  - intros m' x Hm' Hx. simpl in Hm'. apply in_map_iff in Hm'.
    destruct Hm' as (m & <- & Hm).
    destruct (includes removed (orEmpty (MediaFile.folderId m))) eqn:E;
      [discriminate|].
    rewrite Hx in E. apply Hkept; [|exact E]. now apply Hitems with m.
  - intros f p Hf Hp. simpl in Hf. apply filter_In in Hf.
    destruct Hf as [Hf Hout]. apply negb_true_iff in Hout.
    apply Hkept; [now apply Hfolders with f|].
    apply includes_false. intros Hin. apply includes_false in Hout.
    apply Hout, Hrem. apply descendantOf_child with p; trivial. now apply Hrem.
Qed.

(** X12: [deleteFolder] leaves no dangling reference behind.  If every
    [folderId] of an item and every [parentId] of a folder named a folder of
    the store before the call, they do after it, however the call ends. *)
Theorem deleteFolder_keeps_references (stack : nat) (id : string) (r : Runtime) :
  referencesResolved (store r) ->
  referencesResolved (store (snd (deleteFolder stack id r))).
Proof.
  intros Href.
  destruct (deleteFolder_cases stack id r)
    as [[_ ->]|[->|(removed & _ & Hids & ->)]]; trivial.
  cbn [snd store]. apply afterDelete_references with id; trivial.
  now apply getDescendantIds_sound with stack.
Qed.

Lemma storeWithTree_own_references :
  referencesResolved
    (Store.set_mediaFiles
       [sampleFile "m1" (Some "b") None; sampleFile "m2" (Some "d") None;
        sampleFile "m3" None None]
       storeWithTree).
Proof.
  split.
  - intros m x [<-|[<-|[<-|[]]]] Hx; simpl in Hx; try discriminate;
      injection Hx as <-; simpl; auto.
  - intros f p [<-|[<-|[<-|[<-|[]]]]] Hp; simpl in Hp; try discriminate;
      injection Hp as <-; simpl; auto.
Qed.

Lemma deleteFolder_keeps_references_witness :
  store (snd (deleteFolder 2 "b"
                (runtimeOf (Store.set_mediaFiles
                   [sampleFile "m1" (Some "b") None;
                    sampleFile "m2" (Some "d") None; sampleFile "m3" None None]
                   storeWithTree))))
  = Store.mk [sampleFile "m1" None None; sampleFile "m2" (Some "d") None;
              sampleFile "m3" None None]
             [userFolder "a" None None; userFolder "d" None None]
             None false
  /\ referencesResolved
       (store (snd (deleteFolder 2 "b"
                (runtimeOf (Store.set_mediaFiles
                   [sampleFile "m1" (Some "b") None;
                    sampleFile "m2" (Some "d") None; sampleFile "m3" None None]
                   storeWithTree))))).
Proof.
  split; [reflexivity|].
  apply deleteFolder_keeps_references. apply storeWithTree_own_references.
Defined.

(** A store on which [afterDelete] has nothing to do. *)
Lemma afterDelete_nothing (removed : list string) (s : Store.t) :
  (forall f, In f (Store.folders s) ->
             includes removed (MediaFolder.id f) = false) ->
  (forall m, In m (Store.mediaFiles s) ->
             includes removed (orEmpty (MediaFile.folderId m)) = true ->
             MediaFile.folderId m = None) ->
  (includes removed (orEmpty (Store.currentFolderId s)) = true ->
   Store.currentFolderId s = None) ->
  afterDelete removed s = s.
Proof.
  intros HF HM HC. unfold afterDelete.
  rewrite map_fixed, filter_id_when.
  - destruct (includes removed (orEmpty (Store.currentFolderId s))) eqn:E.
    + rewrite <- (HC eq_refl). apply store_eta.
    + apply store_eta.
  - intros f Hf. now rewrite (HF f Hf).
  - intros m Hm.
    destruct (includes removed (orEmpty (MediaFile.folderId m))) eqn:E;
      [|reflexivity].
    apply with_folderId_same. now apply HM.
Qed.

(** After a deletion nothing is left that the same deletion would touch. *)
Lemma afterDelete_settled (removed : list string) (root : string) (s : Store.t) :
  (forall y, In y removed <-> descendantOf (Store.folders s) root y) ->
  let s' := afterDelete removed s in
  (forall f, In f (Store.folders s') -> MediaFolder.id f <> root)
  /\ (forall f, In f (Store.folders s') -> MediaFolder.parentId f <> Some root)
  /\ afterDelete [root] s' = s'.
Proof.
  intros Hrem s'.
  assert (Hroot : includes removed root = true).
  { apply includes_In, Hrem. constructor. }
  assert (Hone : forall x, includes [root] x = true -> x = root).
  { intros x H. apply includes_In in H. destruct H as [H|[]]. now symmetry. }
  assert (Hid : forall f, In f (Store.folders s') -> MediaFolder.id f <> root).
  { intros f Hf E. simpl in Hf. apply filter_In in Hf. destruct Hf as [_ Hout].
    rewrite E, Hroot in Hout. discriminate. }
  split; [exact Hid|]. split.
  - intros f Hf Hp. simpl in Hf. apply filter_In in Hf.
    destruct Hf as [Hf Hout]. apply negb_true_iff, includes_false in Hout.
    apply Hout, Hrem. apply desc_child with f; trivial. constructor.
  - apply afterDelete_nothing.
    + intros f Hf. apply includes_false. intros [E|[]].
      now apply (Hid f Hf).
    + intros m' Hm' Hinc. apply Hone in Hinc. simpl in Hm'.
      apply in_map_iff in Hm'. destruct Hm' as (m & <- & _).
      destruct (includes removed (orEmpty (MediaFile.folderId m))) eqn:E;
        [reflexivity|].
      rewrite Hinc, Hroot in E. discriminate.
    + intros Hinc. apply Hone in Hinc. simpl in *.
      destruct (includes removed (orEmpty (Store.currentFolderId s))) eqn:E;
        [reflexivity|].
      rewrite Hinc, Hroot in E. discriminate.
Qed.

(** X13: deleting twice is deleting once.  After a [deleteFolder id] that
    returned, a second [deleteFolder id] (one stack frame is enough) returns
    and changes nothing. *)
Theorem deleteFolder_twice (stack stack' : nat) (id : string) (r : Runtime) :
  fst (deleteFolder stack id r) = Returned ->
  1 <= stack' ->
  deleteFolder stack' id (snd (deleteFolder stack id r))
  = (Returned, snd (deleteFolder stack id r)).
Proof.
  intros Hret Hstack'. destruct stack' as [|n]; [lia|].
  destruct (deleteFolder_cases stack id r)
    as [[G E]|[E|(removed & Hguard & Hids & E)]]; rewrite E in *;
    cbn [fst snd] in *.
  - now apply deleteFolder_guarded.
  - discriminate.
  - assert (Hs : forall y, In y removed <->
                            descendantOf (Store.folders (store r)) id y)
      by now apply getDescendantIds_sound with stack.
    destruct (@afterDelete_settled removed id (store r) Hs)
      as (Hid & Hparent & Hfix).
    rewrite (@deleteFolder_run (S n) id _ [id]).
    + cbn [store uuidCalls clockReads]. now rewrite Hfix.
    + cbn [store].
      destruct (find (fun f => MediaFolder.id f =? id)
                     (Store.folders (afterDelete removed (store r))))
        as [G|] eqn:F; [|reflexivity].
      destruct (find_id_eq _ _ F) as [HG HX]. now apply Hid in HG.
    + cbn [store]. now apply getDescendantIds_leaf.
Qed.

Lemma deleteFolder_twice_witness :
  deleteFolder 1 "a" (snd (deleteFolder 3 "a" (runtimeOf storeWithTree)))
  = (Returned, snd (deleteFolder 3 "a" (runtimeOf storeWithTree))).
Proof.
  apply deleteFolder_twice; [reflexivity|lia].
Defined.

(** X14: [deleteFolder] never removes a system folder.  In a store whose
    folder ids are pairwise distinct and whose system folders are roots,
    every system folder is still there after [deleteFolder], whatever id it
    is called on and however it ends. *)
Theorem deleteFolder_spares_system_folders
        (stack : nat) (id : string) (r : Runtime) (g : MediaFolder.t) :
  NoDup (folderIds (Store.folders (store r))) ->
  (forall f, In f (Store.folders (store r)) -> MediaFolder.isSystem f = true ->
             MediaFolder.parentId f = None) ->
  In g (Store.folders (store r)) ->
  MediaFolder.isSystem g = true ->
  In g (Store.folders (store (snd (deleteFolder stack id r)))).
Proof.
  intros Hnd Hroots Hg Hsys.
  destruct (deleteFolder_cases stack id r)
    as [[_ ->]|[->|(removed & Hguard & Hids & ->)]]; trivial.
  cbn [snd store]. simpl. apply filter_In. split; [exact Hg|].
  apply negb_true_iff, includes_false. intros Hin.
  apply (getDescendantIds_sound _ _ _ Hids) in Hin.
  apply descendantOf_inv in Hin. destruct Hin as [E|(f & p & Hf & Hid & Hp)].
  - rewrite <- E, (@find_id_unique _ _ Hnd Hg) in Hguard. simpl in Hguard.
    congruence.
  - assert (f = g) by (eapply NoDup_map_eq; eauto). subst f.
    rewrite (Hroots g Hg Hsys) in Hp. discriminate.
Qed.

Lemma deleteFolder_spares_system_folders_witness :
  Store.folders (store (snd (deleteFolder 2 "f1" (runtimeOf storeWithSystemFolder))))
  = [systemFolder "s1" "ai-image"]
  /\ In (systemFolder "s1" "ai-image")
        (Store.folders
           (store (snd (deleteFolder 2 "f1" (runtimeOf storeWithSystemFolder))))).
Proof.
  split; [reflexivity|].
  apply deleteFolder_spares_system_folders.
  - vm_compute. repeat constructor; simpl; intuition discriminate.
  - simpl. intros f [<-|[<-|[]]]; [reflexivity|discriminate].
  - simpl. auto.
  - reflexivity.
Defined.

(** X15: [addFolder] followed by [deleteFolder] on the returned id gives back
    the store as it was, provided the fresh id is new to the store: it is no
    folder's id or parent id, not the parent id given, no item's folder and
    not the current folder. *)
Theorem addFolder_then_deleteFolder
        (uuidAt : nat -> string) (nowAt : nat -> number) (r : Runtime)
        (name : string) (parentId projectId : option string) (stack : nat) :
  let fresh := uuidAt (uuidCalls r) in
  ~ In fresh (folderIds (Store.folders (store r))) ->
  (forall f, In f (Store.folders (store r)) ->
             MediaFolder.parentId f <> Some fresh) ->
  parentId <> Some fresh ->
  (forall m, In m (Store.mediaFiles (store r)) ->
             MediaFile.folderId m <> Some fresh) ->
  Store.currentFolderId (store r) <> Some fresh ->
  fst (addFolder uuidAt nowAt name parentId projectId r) = fresh
  /\ fst (deleteFolder (S stack) fresh
            (snd (addFolder uuidAt nowAt name parentId projectId r)))
     = Returned
  /\ store (snd (deleteFolder (S stack) fresh
                   (snd (addFolder uuidAt nowAt name parentId projectId r))))
     = store r.
Proof.
  intros fresh Hid Hparents Hparent Hitems Hcurrent.
  split; [reflexivity|].
  set (created := MediaFolder.mk fresh name parentId projectId false
                    (truthy projectId) None (nowAt (clockReads r))).
  set (r1 := snd (addFolder uuidAt nowAt name parentId projectId r)).
  assert (Hfolders : Store.folders (store r1)
                     = Store.folders (store r) ++ [created]) by reflexivity.
  assert (Hnone : find (fun f => MediaFolder.id f =? fresh)
                       (Store.folders (store r)) = None).
  { destruct (find _ _) as [G|] eqn:F; [|reflexivity].
    destruct (find_id_eq _ _ F) as [HG HX]. exfalso. apply Hid.
    rewrite <- HX. now apply in_map. }
  assert (Hsome : forall x, includes [fresh] (orEmpty x) = true ->
            x <> Some fresh -> x = None).
  { intros [x|] Hinc Hx; [|reflexivity]. apply includes_In in Hinc.
    destruct Hinc as [E|[]]. simpl in E. congruence. }
  rewrite (@deleteFolder_run (S stack) fresh r1 [fresh]).
  - split; [reflexivity|]. cbn [snd store]. unfold afterDelete.
    change (Store.mediaFiles (store r1)) with (Store.mediaFiles (store r)).
    change (Store.currentFolderId (store r1))
      with (Store.currentFolderId (store r)).
    change (Store.isLoading (store r1)) with (Store.isLoading (store r)).
    rewrite Hfolders, filter_app, filter_id_when, map_fixed.
    + replace (filter (fun f => negb (includes [fresh] (MediaFolder.id f)))
                      [created]) with (@nil MediaFolder.t)
        by (cbn; now rewrite String.eqb_refl).
      rewrite app_nil_r.
      destruct (includes [fresh] (orEmpty (Store.currentFolderId (store r))))
        eqn:E.
      * rewrite <- (Hsome _ E Hcurrent). apply store_eta.
      * apply store_eta.
    + intros m Hm.
      destruct (includes [fresh] (orEmpty (MediaFile.folderId m))) eqn:E;
        [|reflexivity].
      apply with_folderId_same, (Hsome _ E). now apply Hitems.
    + intros f Hf. simpl.
      rewrite String.eqb_sym, (@not_in_folderIds _ _ _ Hid Hf). reflexivity.
  - rewrite Hfolders, (@find_app_none _ _ _ _ Hnone). simpl.
    now rewrite String.eqb_refl.
  - apply getDescendantIds_leaf. rewrite Hfolders. intros f Hf.
    apply in_app_or in Hf. destruct Hf as [Hf|[<-|[]]]; [now apply Hparents|].
    exact Hparent.
Qed.

Lemma addFolder_then_deleteFolder_witness :
  fst (addFolder sampleUuid sampleNow "New" (Some "a") (Some "p")
                 (runtimeOf storeWithTree)) = "uuid-0"
  /\ store (snd (deleteFolder 1 "uuid-0"
                   (snd (addFolder sampleUuid sampleNow "New" (Some "a")
                                   (Some "p") (runtimeOf storeWithTree)))))
     = storeWithTree.
Proof.
  destruct (@addFolder_then_deleteFolder sampleUuid sampleNow
              (runtimeOf storeWithTree) "New" (Some "a") (Some "p") 0)
    as (Hid & _ & Hstore).
  - simpl. intuition discriminate.
  - simpl. intros f [<-|[<-|[<-|[<-|[]]]]]; discriminate.
  - discriminate.
  - simpl. intros m [<-|[<-|[<-|[<-|[]]]]]; discriminate.
  - discriminate.
  - split; [exact Hid|exact Hstore].
Defined.

(** ** Invariants of the folder list *)

Section FolderInvariants.
Variable uuidAt : nat -> string.
Variable nowAt : nat -> number.

(** The fresh system folders, one by one. *)
Lemma freshSystemFolders_In (u c : nat) (cats : list CategoryDef)
      (f : MediaFolder.t) :
  In f (freshSystemFolders uuidAt nowAt u c cats) ->
  MediaFolder.isSystem f = true
  /\ MediaFolder.parentId f = None
  /\ MediaFolder.projectId f = None
  /\ (exists cat, In cat cats /\ MediaFolder.category f = Some (cat_category cat))
  /\ (exists k, u <= k < u + List.length cats /\ MediaFolder.id f = uuidAt k).
Proof.
  revert u c. induction cats as [|cat rest IH]; intros u c; simpl; [tauto|].
  intros [<-|Hin].
  - simpl. repeat split; trivial.
    + exists cat. auto.
    + exists u. split; [lia|reflexivity].
  - destruct (IH _ _ Hin) as (Hs & Hp & Hj & (cat' & Hc & Hcat) & (k & Hk & Hid)).
    repeat split; trivial.
    + exists cat'. auto.
    + exists k. split; [lia|exact Hid].
Qed.

Lemma systemCount_fresh_le (u c : nat) (cats : list CategoryDef)
      (category : string) :
  NoDup (map cat_category cats) ->
  systemCount category (freshSystemFolders uuidAt nowAt u c cats) <= 1
  /\ (1 <= systemCount category (freshSystemFolders uuidAt nowAt u c cats) ->
      In category (map cat_category cats)).
Proof.
  revert u c. induction cats as [|cat rest IH]; intros u c Hnd.
  - simpl. split; [unfold systemCount; simpl; lia|].
    unfold systemCount. simpl. lia.
  - inversion Hnd as [|? ? Hnotin Hrest]; subst.
    destruct (IH (S u) (S c) Hrest) as [Hle Hin].
    unfold systemCount in *. cbn [freshSystemFolders filter].
    assert (Hhead : isSystemOf category
              (MediaFolder.mk (uuidAt u) (cat_name cat) None None true false
                              (Some (cat_category cat)) (nowAt c))
            = (cat_category cat =? category)) by reflexivity.
    rewrite Hhead. destruct (cat_category cat =? category) eqn:E.
    + apply String.eqb_eq in E. simpl. split; [|intros _; left; exact E].
      destruct (List.length (filter (isSystemOf category)
                  (freshSystemFolders uuidAt nowAt (S u) (S c) rest))) eqn:L;
        [lia|].
      exfalso. apply Hnotin. rewrite E. apply Hin. lia.
    + simpl. split; [exact Hle|]. intros H. right. apply Hin, H.
Qed.

Lemma NoDup_fresh_ids (u c : nat) (cats : list CategoryDef) :
  (forall i j, uuidAt i = uuidAt j -> i = j) ->
  NoDup (folderIds (freshSystemFolders uuidAt nowAt u c cats)).
Proof.
  intros Hinj. revert u c. induction cats as [|cat rest IH]; intros u c; simpl.
  - constructor.
  - constructor; [|apply IH]. intros Hin. apply in_map_iff in Hin.
    destruct Hin as (f & Hid & Hf).
    destruct (freshSystemFolders_In _ _ _ _ Hf) as (_ & _ & _ & _ & k & Hk & Hk').
    rewrite Hk' in Hid. apply Hinj in Hid. lia.
Qed.

Lemma NoDup_filter_ids (p : MediaFolder.t -> bool) (l : list MediaFolder.t) :
  NoDup (folderIds l) -> NoDup (folderIds (filter p l)).
Proof.
  induction l as [|f l IH]; simpl; intros Hnd; [constructor|].
  inversion Hnd as [|? ? Hnotin Hrest]; subst.
  destruct (p f); [|now apply IH]. simpl. constructor; [|now apply IH].
  intros Hin. apply Hnotin. apply in_map_iff in Hin.
  destruct Hin as (g & Hid & Hg). apply filter_In in Hg. rewrite <- Hid.
  now apply in_map.
Qed.

Lemma systemCount_filter_le (category : string) (p : MediaFolder.t -> bool)
      (l : list MediaFolder.t) :
  systemCount category (filter p l) <= systemCount category l.
Proof.
  unfold systemCount. induction l as [|f l IH]; simpl; [lia|].
  destruct (p f); simpl; destruct (isSystemOf category f); simpl; lia.
Qed.

Lemma systemCount_map (category : string) (g : MediaFolder.t -> MediaFolder.t)
      (l : list MediaFolder.t) :
  (forall f, isSystemOf category (g f) = isSystemOf category f) ->
  systemCount category (map g l) = systemCount category l.
Proof.
  intros Hg. unfold systemCount. induction l as [|f l IH]; simpl; [reflexivity|].
  rewrite Hg. destruct (isSystemOf category f); simpl; now rewrite IH.
Qed.

Lemma NoDup_filter {A} (p : A -> bool) (l : list A) :
  NoDup l -> NoDup (filter p l).
Proof.
  induction 1 as [|x l Hx Hl IH]; simpl; [constructor|].
  destruct (p x); [|exact IH]. constructor; [|exact IH].
  intros H. apply filter_In in H. tauto.
Qed.

Lemma missingCategories_shape (folders : list MediaFolder.t) :
  NoDup (map cat_category (missingCategories folders SYSTEM_CATEGORIES))
  /\ forall cat, In cat (missingCategories folders SYSTEM_CATEGORIES) ->
                 find (isSystemOf (cat_category cat)) folders = None.
Proof.
  split.
  - unfold missingCategories, SYSTEM_CATEGORIES. simpl.
    destruct (find (isSystemOf "ai-image") folders),
             (find (isSystemOf "ai-video") folders),
             (find (isSystemOf "upload") folders); simpl;
      repeat constructor; simpl; intuition discriminate.
  - intros cat H. apply filter_In in H. destruct H as [_ H].
    now destruct (find (isSystemOf (cat_category cat)) folders).
Qed.

Lemma run_FolderChange (m : Mutation) (r : Runtime) :
  FolderChange uuidAt nowAt r (run uuidAt nowAt m r).
Proof.
  destruct m; simpl.
  - apply fc_same; simpl; auto.
  - apply fc_same; simpl; auto.
  - apply fc_same; simpl; auto.
  - apply fc_same; [now destruct loaded|now destruct loaded].
  - apply fc_same; simpl; auto.
  - apply fc_cleared; simpl; auto.
  - apply fc_added with
      (MediaFolder.mk (uuidAt (uuidCalls r)) name parentId projectId false
                      (truthy projectId) None (nowAt (clockReads r)));
      reflexivity.
  - apply fc_mapped with
      (fun f => if MediaFolder.id f =? id then MediaFolder.with_name name f
                else f); [reflexivity| |simpl; auto].
    intros f. destruct (MediaFolder.id f =? id); simpl; auto.
  - destruct (deleteFolder_cases stack id r)
      as [[_ E]|[E|(removed & _ & _ & E)]]; unfold exec; rewrite E; cbn [snd].
    + apply fc_same; auto.
    + apply fc_same; auto.
    + apply fc_filtered with
        (fun f => negb (includes removed (MediaFolder.id f)));
        [reflexivity|simpl; auto].
  - apply fc_same; simpl; auto.
  - apply fc_same; simpl; auto.
  - apply fc_same; simpl; auto.
  - apply fc_same; simpl; auto.
  - apply fc_same.
    + destruct e as [id url localPath|id thumbnailUrl thumbLocalPath|id];
        unfold exec, localSaveSettled;
        try match goal with |- context [if ?b then _ else _] => destruct b end;
        reflexivity.
    + destruct e as [id url localPath|id thumbnailUrl thumbLocalPath|id];
        unfold exec, localSaveSettled;
        try match goal with |- context [if ?b then _ else _] => destruct b end;
        simpl; auto.
  - destruct (find (isSystemOf category) (Store.folders (store r)))
      as [existing|] eqn:E.
    + unfold exec.
      rewrite (@getOrCreateCategoryFolder_found uuidAt nowAt _ _ _ E).
      apply fc_same; auto.
    + unfold exec.
      destruct (@getOrCreateCategoryFolder_created uuidAt nowAt _ _ E)
        as [name ->]. cbn [snd].
      apply fc_system with
        [{| cat_category := category; cat_name := name; cat_icon := "" |}].
      * reflexivity.
      * simpl. repeat constructor. simpl. tauto.
      * intros cat [<-|[]]. exact E.
      * simpl. lia.
  - destruct (missingCategories_shape (Store.folders (store r))) as [Hnd Hmiss].
    apply fc_system with
      (missingCategories (Store.folders (store r)) SYSTEM_CATEGORIES); trivial.
    + apply initSystemFolders_folders.
    + now rewrite initSystemFolders_eq.
  - apply fc_mapped with
      (fun folder =>
         if truthy (MediaFolder.projectId folder) || MediaFolder.isSystem folder
         then folder
         else MediaFolder.with_projectId (Some projectId) folder);
      [reflexivity| |simpl; auto].
    intros f.
    destruct (truthy (MediaFolder.projectId f)) eqn:T,
             (MediaFolder.isSystem f) eqn:S;
      simpl; rewrite ?S; repeat split; try reflexivity;
      intros H; discriminate H.
Qed.

End FolderInvariants.

Lemma FolderChange_systemFolders
      (uuidAt : nat -> string) (nowAt : nat -> number) (r r' : Runtime) :
  FolderChange uuidAt nowAt r r' ->
  systemFoldersInvariant (Store.folders (store r)) ->
  systemFoldersInvariant (Store.folders (store r')).
Proof.
  intros Hchange [Hshape Hone].
  destruct Hchange as [E _|E _|g E Hg _|p E _|created E Hsys _ _
                      |cats E Hnd Hmiss _]; rewrite E.
  - now split.
  - split; [intros f []|]. intros c. unfold systemCount. simpl. lia.
  - split.
    + intros f' Hf' Hs. apply in_map_iff in Hf'. destruct Hf' as (f & <- & Hf).
      destruct (Hg f) as (_ & Hp & Hi & Hc & Hj).
      rewrite Hi in Hs. destruct (Hshape f Hf Hs) as (H1 & H2 & H3).
      rewrite Hp, Hc, (Hj Hs). auto.
    + intros c. rewrite systemCount_map; [apply Hone|].
      intros f. destruct (Hg f) as (_ & _ & Hi & Hc & _).
      unfold isSystemOf. now rewrite Hi, Hc.
  - split.
    + intros f Hf. apply filter_In in Hf. now apply Hshape.
    + intros c. etransitivity; [apply systemCount_filter_le|apply Hone].
  - split.
    + intros f Hf Hs. apply in_app_or in Hf. destruct Hf as [Hf|[<-|[]]].
      * now apply Hshape.
      * congruence.
    + intros c. rewrite systemCount_app. unfold systemCount at 2. simpl.
      unfold isSystemOf at 1. rewrite Hsys. simpl. specialize (Hone c). lia.
  - split.
    + intros f Hf Hs. apply in_app_or in Hf. destruct Hf as [Hf|Hf].
      * now apply Hshape.
      * destruct (freshSystemFolders_In _ _ _ _ _ _ Hf)
          as (_ & H1 & H2 & (cat & _ & H3) & _).
        rewrite H3. repeat split; trivial. discriminate.
    + intros c. rewrite systemCount_app.
      destruct (@systemCount_fresh_le uuidAt nowAt (uuidCalls r) (clockReads r)
                  cats c Hnd) as [Hle Hin].
      destruct (systemCount c (freshSystemFolders uuidAt nowAt (uuidCalls r)
                                 (clockReads r) cats)) as [|n] eqn:L.
      * specialize (Hone c). lia.
      * assert (Hc : In c (map cat_category cats)) by (apply Hin; lia).
        apply in_map_iff in Hc. destruct Hc as (cat & <- & Hcat).
        rewrite (systemCount_none _ _ (Hmiss cat Hcat)). lia.
Qed.

(** X16: the system folders stay well-formed.  If every system folder of
    the store is a root without project id bound to a category, and no
    category has two system folders, then the same holds after any sequence
    of store mutations, [getOrCreateCategoryFolder] on any category
    included. *)
Theorem systemFolders_invariant
        (uuidAt : nat -> string) (nowAt : nat -> number)
        (ms : list Mutation) (r : Runtime) :
  systemFoldersInvariant (Store.folders (store r)) ->
  systemFoldersInvariant (Store.folders (store (runAll uuidAt nowAt ms r))).
Proof.
  revert r. induction ms as [|m ms IH]; intros r Hinv; [exact Hinv|].
  simpl. apply IH. eapply FolderChange_systemFolders; [|exact Hinv].
  apply run_FolderChange.
Qed.

Lemma systemFolders_invariant_witness :
  map (fun f => (MediaFolder.id f, MediaFolder.category f))
      (filter MediaFolder.isSystem
         (Store.folders (store (runAll tallyUuid sampleNow sampleSession
                                       (runtimeOf Store.initial)))))
  = [("u", Some "ai-image"); ("ux", Some "ai-video"); ("uxx", Some "upload");
     ("uxxxxx", Some "custom")]
  /\ systemFoldersInvariant
       (Store.folders (store (runAll tallyUuid sampleNow sampleSession
                                     (runtimeOf Store.initial)))).
Proof.
  split; [reflexivity|].
  apply systemFolders_invariant. split.
  - intros f [].
  - intros c. unfold systemCount. simpl. lia.
Defined.

Lemma folderIds_map (g : MediaFolder.t -> MediaFolder.t)
      (l : list MediaFolder.t) :
  (forall f, MediaFolder.id (g f) = MediaFolder.id f) ->
  folderIds (map g l) = folderIds l.
Proof.
  intros H. unfold folderIds. rewrite map_map. now apply map_ext.
Qed.

Lemma FolderChange_ids
      (uuidAt : nat -> string) (nowAt : nat -> number) (r r' : Runtime) :
  (forall i j, uuidAt i = uuidAt j -> i = j) ->
  FolderChange uuidAt nowAt r r' ->
  folderIdsIssued uuidAt r -> folderIdsIssued uuidAt r'.
Proof.
  intros Hinj Hchange [Hnd Hissued]. unfold folderIdsIssued.
  destruct Hchange as [E Hu|E Hu|g E Hg Hu|p E Hu|created E Hsys Hid Hu
                      |cats E Hcats Hmiss Hu]; rewrite E.
  - split; [exact Hnd|]. intros f Hf.
    destruct (Hissued f Hf) as (k & Hk & Hfk). exists k. split; [lia|exact Hfk].
  - split; [constructor|]. intros f [].
  - rewrite folderIds_map by (intros f; apply Hg). split; [exact Hnd|].
    intros f' Hf'. apply in_map_iff in Hf'. destruct Hf' as (f & <- & Hf).
    destruct (Hissued f Hf) as (k & Hk & Hfk). exists k.
    destruct (Hg f) as [-> _]. split; [lia|exact Hfk].
  - split; [now apply NoDup_filter_ids|]. intros f Hf.
    apply filter_In in Hf. destruct Hf as [Hf _].
    destruct (Hissued f Hf) as (k & Hk & Hfk). exists k. split; [lia|exact Hfk].
  - split.
    + unfold folderIds. rewrite map_app. apply NoDup_app; trivial.
      * simpl. repeat constructor. intros [].
      * intros x Hx [<-|[]]. apply in_map_iff in Hx.
        destruct Hx as (f & Hfx & Hf).
        destruct (Hissued f Hf) as (k & Hk & Hfk).
        rewrite Hid, Hfk in Hfx. apply Hinj in Hfx. lia.
    + intros f Hf. apply in_app_or in Hf. destruct Hf as [Hf|[<-|[]]].
      * destruct (Hissued f Hf) as (k & Hk & Hfk). exists k.
        split; [lia|exact Hfk].
      * exists (uuidCalls r). split; [lia|exact Hid].
  - split.
    + unfold folderIds. rewrite map_app. apply NoDup_app; trivial.
      * now apply NoDup_fresh_ids.
      * intros x Hx Hx'. apply in_map_iff in Hx, Hx'.
        destruct Hx as (f & Hfx & Hf), Hx' as (f' & Hfx' & Hf').
        destruct (Hissued f Hf) as (k & Hk & Hfk).
        destruct (freshSystemFolders_In _ _ _ _ _ _ Hf')
          as (_ & _ & _ & _ & k' & Hk' & Hfk').
        rewrite <- Hfx', Hfk, Hfk' in Hfx. apply Hinj in Hfx. lia.
    + intros f Hf. apply in_app_or in Hf. destruct Hf as [Hf|Hf].
      * destruct (Hissued f Hf) as (k & Hk & Hfk). exists k.
        split; [lia|exact Hfk].
      * destruct (freshSystemFolders_In _ _ _ _ _ _ Hf)
          as (_ & _ & _ & _ & k & Hk & Hfk).
        exists k. split; [lia|exact Hfk].
Qed.

Lemma tally_inj (i j : nat) : tally i = tally j -> i = j.
Proof.
  revert j. induction i as [|i IH]; destruct j as [|j]; simpl; intros H;
    try discriminate; [reflexivity|].
  injection H as H. f_equal. now apply IH.
Qed.

Lemma tallyUuid_inj (i j : nat) : tallyUuid i = tallyUuid j -> i = j.
Proof.
  unfold tallyUuid. simpl. intros H. injection H as H. now apply tally_inj.
Qed.

(** X17: folder ids stay distinct.  When [generateUUID] never returns the
    same value twice, and the folder ids of the store are pairwise distinct
    values it has returned, the same holds after any sequence of store
    mutations: no action ever gives two folders one id. *)
Theorem folderIds_invariant
        (uuidAt : nat -> string) (nowAt : nat -> number)
        (ms : list Mutation) (r : Runtime) :
  (forall i j, uuidAt i = uuidAt j -> i = j) ->
  folderIdsIssued uuidAt r ->
  folderIdsIssued uuidAt (runAll uuidAt nowAt ms r).
Proof.
  intros Hinj. revert r. induction ms as [|m ms IH]; intros r Hinv; [exact Hinv|].
  simpl. apply IH. eapply FolderChange_ids; [exact Hinj| |exact Hinv].
  apply run_FolderChange.
Qed.

Lemma folderIds_invariant_witness :
  folderIds (Store.folders (store (runAll tallyUuid sampleNow sampleSession
                                          (runtimeOf Store.initial))))
  = ["u"; "ux"; "uxx"; "uxxxxx"]
  /\ folderIdsIssued tallyUuid
       (runAll tallyUuid sampleNow sampleSession (runtimeOf Store.initial)).
Proof.
  split; [reflexivity|].
  apply folderIds_invariant.
  - apply tallyUuid_inj.
  - split; [constructor|]. intros f [].
Defined.

(** ** partialize *)

Lemma persistedItem_url (m : MediaFile.t) :
  MediaFile.url (persistedItem m) = persistedUrl (MediaFile.url m)
  /\ MediaFile.thumbnailUrl (persistedItem m)
     = persistedUrl (MediaFile.thumbnailUrl m).
Proof. split; reflexivity. Qed.

Lemma persistedUrl_durable (o : option string) : durableUrl (persistedUrl o).
Proof.
  unfold durableUrl, persistedUrl.
  destruct (isTransientUrl (normalizeUrl (urlValue o))) eqn:E; auto.
Qed.

Lemma persistedUrl_of_durable (o : option string) :
  durableUrl o -> persistedUrl o = o.
Proof.
  intros [->|H]; [reflexivity|]. destruct o as [s|]; [|reflexivity].
  unfold persistedUrl. simpl in *.
  destruct (s =? "") eqn:E; [discriminate|]. simpl. now rewrite E, H.
Qed.

Lemma persistedItem_again (m : MediaFile.t) :
  persistedItem (persistedItem m) = persistedItem m.
Proof.
  transitivity
    (MediaFile.mk (MediaFile.id m) (MediaFile.name m) (MediaFile.type m)
       (persistedUrl (persistedUrl (MediaFile.url m)))
       (persistedUrl (persistedUrl (MediaFile.thumbnailUrl m)))
       (MediaFile.duration m) (MediaFile.width m) (MediaFile.height m)
       (MediaFile.source m) (MediaFile.folderId m) (MediaFile.projectId m)
       None (MediaFile.ephemeral m)); [reflexivity|].
  rewrite (@persistedUrl_of_durable _ (persistedUrl_durable (MediaFile.url m))),
          (@persistedUrl_of_durable _
             (persistedUrl_durable (MediaFile.thumbnailUrl m))).
  reflexivity.
Qed.

(** X18: what is persisted is clean.  Whatever the store, no item of
    [partialize]'s result is ephemeral or carries a File, and its [url] and
    [thumbnailUrl] are absent or neither empty nor [blob:] nor [data:] urls;
    the items are those of the store that are not ephemeral, in order and
    with their other fields, and the folders are persisted as they are. *)
Theorem partialize_clean (s : Store.t) :
  Forall (fun m => MediaFile.ephemeral m = false
                   /\ MediaFile.file m = None
                   /\ durableUrl (MediaFile.url m)
                   /\ durableUrl (MediaFile.thumbnailUrl m))
         (Persisted.mediaFiles (partialize s))
  /\ map metadataOf (Persisted.mediaFiles (partialize s))
     = map metadataOf
           (filter (fun f => negb (MediaFile.ephemeral f)) (Store.mediaFiles s))
  /\ Persisted.folders (partialize s) = Store.folders s.
Proof.
  split; [|split; [|reflexivity]].
  - apply Forall_forall. intros m' Hm'. simpl in Hm'. apply in_map_iff in Hm'.
    destruct Hm' as (m & <- & Hm). apply filter_In in Hm.
    destruct Hm as [_ Hm]. apply negb_true_iff in Hm.
    destruct (persistedItem_url m) as [-> ->].
    repeat split; trivial; apply persistedUrl_durable.
  - simpl. rewrite map_map. now apply map_ext.
Qed.

(** X19: persisting is idempotent.  For a store that holds what
    [partialize] gave, [partialize] gives the same catalog again. *)
Theorem partialize_again (s : Store.t) :
  partialize (storeHolding (partialize s)) = partialize s.
Proof.
  unfold partialize. cbn [storeHolding Store.folders Store.mediaFiles
    Persisted.folders Persisted.mediaFiles].
  f_equal. rewrite filter_id_when.
  - rewrite map_map. apply map_ext. intros m. apply persistedItem_again.
  - intros m' Hm'. apply in_map_iff in Hm'. destruct Hm' as (m & <- & Hm).
    apply filter_In in Hm. now destruct Hm.
Qed.

(** ** migrateMediaDataUrls *)

Section Migration.
Variable save : nat -> string -> Settled string.

Lemma localSaveSettled_eq (e : SaveSettled) (r : Runtime) :
  localSaveSettled e r
  = (tt, {| store := Store.set_mediaFiles
                       (applySave e (Store.mediaFiles (store r))) (store r);
            uuidCalls := uuidCalls r;
            clockReads := clockReads r |}).
Proof.
  assert (Hsame : (tt, r)
            = (tt, {| store := Store.set_mediaFiles (Store.mediaFiles (store r))
                                                    (store r);
                      uuidCalls := uuidCalls r;
                      clockReads := clockReads r |})).
  { f_equal. symmetry. apply runtime_store_eta. apply store_eta. }
  destruct e as [id url localPath|id thumbnailUrl thumbLocalPath|id];
    unfold localSaveSettled, applySave;
    try match goal with |- context [if ?b then _ else _] => destruct b end;
    solve [reflexivity | exact Hsame].
Qed.

Lemma localSavesSettled_eq (es : list SaveSettled) (r : Runtime) :
  localSavesSettled es r
  = (tt, {| store := Store.set_mediaFiles
                       (applySaves es (Store.mediaFiles (store r))) (store r);
            uuidCalls := uuidCalls r;
            clockReads := clockReads r |}).
Proof.
  revert r. induction es as [|e es IH]; intros r.
  - unfold localSavesSettled, ret. f_equal. symmetry.
    apply runtime_store_eta. apply store_eta.
  - change (localSavesSettled (e :: es) r)
      with (localSavesSettled es (snd (localSaveSettled e r))).
    rewrite localSaveSettled_eq. cbn [snd]. rewrite IH. reflexivity.
Qed.

Lemma applySaves_app (es es' : list SaveSettled) (l : list MediaFile.t) :
  applySaves (es ++ es') l = applySaves es' (applySaves es l).
Proof. apply fold_left_app. Qed.

(** The migration of a file, of a list of files, is the saves it applies. *)
Lemma migrateThumbnail_eq (k : nat) (file : MediaFile.t) (r : Runtime) :
  migrateThumbnail save k file r
  = (snd (thumbnailSaves save k file),
     snd (localSavesSettled (fst (thumbnailSaves save k file)) r)).
Proof.
  unfold migrateThumbnail, thumbnailSaves.
  destruct (isDataUrl (MediaFile.thumbnailUrl file)); [|reflexivity].
  destruct (save k (orEmpty (MediaFile.thumbnailUrl file))); reflexivity.
Qed.

Lemma migrateFile_eq (k : nat) (file : MediaFile.t) (r : Runtime) :
  migrateFile save k file r
  = (snd (fileSaves save k file),
     snd (localSavesSettled (fst (fileSaves save k file)) r)).
Proof.
  unfold migrateFile, fileSaves.
  destruct (isDataUrl (MediaFile.url file)); [|apply migrateThumbnail_eq].
  destruct (save k (orEmpty (MediaFile.url file))) as [localPath|];
    [|reflexivity].
  unfold bind. cbn [fst snd]. rewrite migrateThumbnail_eq. reflexivity.
Qed.

Lemma migrateFiles_eq (files : list MediaFile.t) :
  forall k r,
    migrateFiles save k files r
    = (snd (filesSaves save k files),
       snd (localSavesSettled (fst (filesSaves save k files)) r)).
Proof.
  induction files as [|file rest IH]; intros k r; [reflexivity|].
  cbn [migrateFiles filesSaves fst snd]. unfold bind.
  rewrite migrateFile_eq. cbn [fst snd]. rewrite IH.
  rewrite !localSavesSettled_eq. cbn [snd store Store.mediaFiles
    Store.set_mediaFiles uuidCalls clockReads].
  rewrite applySaves_app. reflexivity.
Qed.

Lemma migrateMediaDataUrls_eq (state : Store.t) (r : Runtime) :
  exists es,
    store (snd (migrateMediaDataUrls save state r))
    = Store.set_mediaFiles (applySaves es (Store.mediaFiles (store r))) (store r)
    /\ uuidCalls (snd (migrateMediaDataUrls save state r)) = uuidCalls r
    /\ clockReads (snd (migrateMediaDataUrls save state r)) = clockReads r
    /\ es = fst (filesSaves save 0
                   (filter needsMigration (Store.mediaFiles state))).
Proof.
  exists (fst (filesSaves save 0 (filter needsMigration (Store.mediaFiles state)))).
  unfold migrateMediaDataUrls.
  destruct (filter needsMigration (Store.mediaFiles state)) as [|file rest] eqn:E.
  - simpl. repeat split; trivial. symmetry. apply store_eta.
  - cbn [List.length Nat.eqb]. rewrite migrateFiles_eq, localSavesSettled_eq.
    cbn [snd store uuidCalls clockReads]. auto.
Qed.

Lemma applySave_strip (e : SaveSettled) (l : list MediaFile.t) :
  map stripUrls (applySave e l) = map stripUrls l.
Proof.
  destruct e as [id url localPath|id thumbnailUrl thumbLocalPath|id];
    unfold applySave;
    try match goal with |- context [if ?b then _ else _] => destruct b end;
    trivial; rewrite map_map; apply map_ext; intros m;
    now destruct (MediaFile.id m =? id).
Qed.

Lemma applySaves_strip (es : list SaveSettled) (l : list MediaFile.t) :
  map stripUrls (applySaves es l) = map stripUrls l.
Proof.
  revert l. induction es as [|e es IH]; intros l; [reflexivity|].
  unfold applySaves. simpl. fold (applySaves es (applySave e l)).
  now rewrite IH, applySave_strip.
Qed.

End Migration.

Lemma migrateMediaDataUrls_only_urls_aux
      (save : nat -> string -> Settled string) (state : Store.t) (r : Runtime) :
  Store.folders (store (snd (migrateMediaDataUrls save state r)))
  = Store.folders (store r)
  /\ map stripUrls
         (Store.mediaFiles (store (snd (migrateMediaDataUrls save state r))))
     = map stripUrls (Store.mediaFiles (store r)).
Proof.
  destruct (migrateMediaDataUrls_eq save state r) as (es & -> & _).
  simpl. split; [reflexivity|apply applySaves_strip].
Qed.

(** X20: the migration touches urls only.  Whatever the saves settle with,
    [migrateMediaDataUrls] leaves the items in place with every field but
    [url] and [thumbnailUrl] as it was, and leaves the folders, the current
    folder and the loading flag alone; no item is added, dropped or moved. *)
Theorem migrateMediaDataUrls_only_urls
        (save : nat -> string -> Settled string) (state : Store.t)
        (r : Runtime) :
  let s := store r in
  let s' := store (snd (migrateMediaDataUrls save state r)) in
  map stripUrls (Store.mediaFiles s') = map stripUrls (Store.mediaFiles s)
  /\ Store.folders s' = Store.folders s
  /\ Store.currentFolderId s' = Store.currentFolderId s
  /\ Store.isLoading s' = Store.isLoading s.
Proof.
  destruct (migrateMediaDataUrls_eq save state r) as (es & -> & _).
  simpl. split; [apply applySaves_strip|auto].
Qed.

Lemma local_not_data (p : string) :
  prefix "local-image://" p = true -> prefix "data:" p = false.
Proof.
  destruct p as [|a p']; [discriminate|]. simpl.
  match goal with |- (if ?d then _ else _) = true -> _ =>
    destruct d as [E|] end; [|discriminate].
  intros _. rewrite <- E.
  match goal with |- (if ?d then _ else _) = _ => destruct d as [D|] end;
    [discriminate D|reflexivity].
Qed.

Lemma isDataUrl_local (p : string) :
  prefix "local-image://" p = true -> isDataUrl (Some p) = false.
Proof.
  intros H. simpl. rewrite (@local_not_data _ H). apply andb_false_r.
Qed.

Lemma isDataUrl_durable (o : option string) :
  durableUrl o -> isDataUrl o = false.
Proof.
  intros [->|H]; [reflexivity|]. destruct o as [s|]; [|reflexivity].
  simpl in *. apply orb_false_iff in H. destruct H as [_ H].
  rewrite H. apply andb_false_r.
Qed.

Lemma save_guard (p : string) (o : option string) :
  prefix "local-image://" p = true -> isDataUrl o = true ->
  negb (p =? orEmpty o) && prefix "local-image://" p = true.
Proof.
  intros Hp Ho. rewrite Hp, andb_true_r. apply negb_true_iff, String.eqb_neq.
  intros ->. destruct o as [s|]; [|discriminate]. simpl in *.
  rewrite (@local_not_data _ Hp) in Ho. now rewrite andb_false_r in Ho.
Qed.

Lemma persisted_items_durable (s : Store.t) (m : MediaFile.t) :
  In m (Persisted.mediaFiles (partialize s)) -> needsMigration m = false.
Proof.
  intros Hm. simpl in Hm. apply in_map_iff in Hm. destruct Hm as (m0 & <- & _).
  unfold needsMigration. destruct (persistedItem_url m0) as [-> ->].
  now rewrite !isDataUrl_durable by apply persistedUrl_durable.
Qed.

(** X21: what [partialize] writes never needs migration: none of its items
    is selected by [migrateMediaDataUrls], which, run on a store that holds
    the persisted catalog, calls no save and changes nothing. *)
Theorem persisted_needs_no_migration
        (save : nat -> string -> Settled string) (s : Store.t) (r : Runtime) :
  filter needsMigration (Persisted.mediaFiles (partialize s)) = []
  /\ migrateMediaDataUrls save (storeHolding (partialize s)) r = (0, r).
Proof.
  assert (H : filter needsMigration (Persisted.mediaFiles (partialize s)) = []).
  { apply filter_nil_when. intros m. apply persisted_items_durable. }
  split; [exact H|]. unfold migrateMediaDataUrls.
  cbn [storeHolding Store.mediaFiles]. now rewrite H.
Qed.

Section MigrationSucceeds.
Variable save : nat -> string -> Settled string.
Hypothesis Hsave : alwaysSavesLocally save.

Lemma thumbnailSaves_good (k : nat) (file : MediaFile.t) :
  exists q, prefix "local-image://" q = true
            /\ fst (thumbnailSaves save k file)
               = if isDataUrl (MediaFile.thumbnailUrl file)
                 then [ThumbnailSaved (MediaFile.id file)
                         (orEmpty (MediaFile.thumbnailUrl file)) q]
                 else [].
Proof.
  unfold thumbnailSaves.
  destruct (Hsave k (orEmpty (MediaFile.thumbnailUrl file))) as (q & Hq & Hloc).
  exists q. split; [exact Hloc|].
  destruct (isDataUrl (MediaFile.thumbnailUrl file)); [|reflexivity].
  now rewrite Hq.
Qed.

Lemma fileSaves_good (k : nat) (file : MediaFile.t) :
  exists p q,
    prefix "local-image://" p = true
    /\ prefix "local-image://" q = true
    /\ forall l, applySaves (fst (fileSaves save k file)) l
                 = map (savedAs file p q) l.
Proof.
  unfold fileSaves.
  destruct (Hsave k (orEmpty (MediaFile.url file))) as (p & Hp & Hploc).
  destruct (isDataUrl (MediaFile.url file)) eqn:U.
  - rewrite Hp. cbn [fst].
    destruct (thumbnailSaves_good (S k) file) as (q & Hqloc & ->).
    exists p, q. split; [exact Hploc|]. split; [exact Hqloc|]. intros l.
    unfold savedAs. rewrite U.
    destruct (isDataUrl (MediaFile.thumbnailUrl file)) eqn:T.
    + unfold applySaves. simpl.
      rewrite (@save_guard _ _ Hploc U), (@save_guard _ _ Hqloc T).
      rewrite map_map. apply map_ext. intros m.
      destruct (MediaFile.id m =? MediaFile.id file) eqn:I; simpl;
        rewrite ?I; reflexivity.
    + unfold applySaves. simpl. rewrite (@save_guard _ _ Hploc U).
      apply map_ext. intros m.
      destruct (MediaFile.id m =? MediaFile.id file) eqn:I; simpl;
        rewrite ?I; reflexivity.
  - destruct (thumbnailSaves_good k file) as (q & Hqloc & ->).
    exists p, q. split; [exact Hploc|]. split; [exact Hqloc|]. intros l.
    unfold savedAs. rewrite U.
    destruct (isDataUrl (MediaFile.thumbnailUrl file)) eqn:T.
    + unfold applySaves. simpl. rewrite (@save_guard _ _ Hqloc T).
      apply map_ext. intros m.
      destruct (MediaFile.id m =? MediaFile.id file) eqn:I; simpl;
        rewrite ?I; reflexivity.
    + unfold applySaves. simpl. symmetry. now apply map_fixed.
Qed.

(** Items whose inline data are all the business of a file still to come end
    up without inline data. *)
Lemma filesSaves_clear (files : list MediaFile.t) :
  forall k l,
    (forall m, In m l -> isDataUrl (MediaFile.url m) = true ->
       exists file, In file files /\ MediaFile.id file = MediaFile.id m
                    /\ isDataUrl (MediaFile.url file) = true) ->
    (forall m, In m l -> isDataUrl (MediaFile.thumbnailUrl m) = true ->
       exists file, In file files /\ MediaFile.id file = MediaFile.id m
                    /\ isDataUrl (MediaFile.thumbnailUrl file) = true) ->
    forall m, In m (applySaves (fst (filesSaves save k files)) l) ->
              needsMigration m = false.
Proof.
  induction files as [|file rest IH]; intros k l Hurl Hthumb m Hm.
  - simpl in Hm. unfold needsMigration.
    destruct (isDataUrl (MediaFile.url m)) eqn:U.
    + destruct (Hurl m Hm U) as (? & [] & _).
    + destruct (isDataUrl (MediaFile.thumbnailUrl m)) eqn:T; [|reflexivity].
      destruct (Hthumb m Hm T) as (? & [] & _).
  - cbn [filesSaves fst] in Hm. rewrite applySaves_app in Hm.
    destruct (fileSaves_good k file) as (p & q & Hp & Hq & Hstep).
    rewrite Hstep in Hm. revert m Hm. apply IH.
    + intros m1 Hm1 U1. apply in_map_iff in Hm1. destruct Hm1 as (m & <- & Hm).
      unfold savedAs in U1 |- *.
      destruct (isDataUrl (MediaFile.url file)) eqn:UF,
               (MediaFile.id m =? MediaFile.id file) eqn:I,
               (isDataUrl (MediaFile.thumbnailUrl file)) eqn:TF;
        cbn [andb] in U1 |- *; cbn [MediaFile.url MediaFile.id
          MediaFile.with_url MediaFile.with_thumbnailUrl] in U1 |- *;
        try (rewrite (@isDataUrl_local _ Hp) in U1; discriminate U1);
        destruct (Hurl m Hm U1) as (f & [<-|Hf] & Hid & Hf');
        try (exists f; auto; fail);
        try congruence;
        try (rewrite Hid, String.eqb_refl in I; discriminate I).
    + intros m1 Hm1 T1. apply in_map_iff in Hm1. destruct Hm1 as (m & <- & Hm).
      unfold savedAs in T1 |- *.
      destruct (isDataUrl (MediaFile.url file)) eqn:UF,
               (MediaFile.id m =? MediaFile.id file) eqn:I,
               (isDataUrl (MediaFile.thumbnailUrl file)) eqn:TF;
        cbn [andb] in T1 |- *; cbn [MediaFile.thumbnailUrl MediaFile.id
          MediaFile.with_url MediaFile.with_thumbnailUrl] in T1 |- *;
        try (rewrite (@isDataUrl_local _ Hq) in T1; discriminate T1);
        destruct (Hthumb m Hm T1) as (f & [<-|Hf] & Hid & Hf');
        try (exists f; auto; fail);
        try congruence;
        try (rewrite Hid, String.eqb_refl in I; discriminate I).
Qed.

End MigrationSucceeds.

Lemma migration_clears
      (save : nat -> string -> Settled string) (state : Store.t) (r : Runtime) :
  alwaysSavesLocally save ->
  Store.mediaFiles state = Store.mediaFiles (store r) ->
  filter needsMigration
         (Store.mediaFiles (store (snd (migrateMediaDataUrls save state r))))
  = [].
Proof.
  intros Hsave Hstate.
  destruct (migrateMediaDataUrls_eq save state r) as (es & -> & _ & _ & ->).
  cbn [Store.mediaFiles Store.set_mediaFiles]. rewrite Hstate.
  apply filter_nil_when. apply (filesSaves_clear Hsave).
  - intros m Hm U. exists m. repeat split; trivial.
    apply filter_In. split; [exact Hm|]. unfold needsMigration. now rewrite U.
  - intros m Hm T. exists m. repeat split; trivial.
    apply filter_In. split; [exact Hm|]. unfold needsMigration. rewrite T.
    apply orb_true_r.
Qed.

Lemma migration_nothing
      (save : nat -> string -> Settled string) (state : Store.t) (r : Runtime) :
  filter needsMigration (Store.mediaFiles state) = [] ->
  migrateMediaDataUrls save state r = (0, r).
Proof. intros H. unfold migrateMediaDataUrls. now rewrite H. Qed.

Lemma saveAsLocal_always : alwaysSavesLocally saveAsLocal.
Proof. intros k u. eexists. split; reflexivity. Qed.

(** X22: a migration whose saves all resolve with a local path is complete.
    Run on the items of the store, it leaves no item with a [data:] url or
    thumbnail, so that a second scan selects nothing, calls no save and
    changes nothing. *)
Theorem migration_complete
        (save : nat -> string -> Settled string) (r : Runtime) :
  alwaysSavesLocally save ->
  let r' := snd (migrateMediaDataUrls save (store r) r) in
  filter needsMigration (Store.mediaFiles (store r')) = []
  /\ migrateMediaDataUrls save (store r') r' = (0, r').
Proof.
  intros Hsave r'.
  assert (H : filter needsMigration (Store.mediaFiles (store r')) = [])
    by now apply migration_clears.
  split; [exact H|]. now apply migration_nothing.
Qed.

Lemma migration_complete_witness :
  map (fun m => (MediaFile.id m, MediaFile.url m, MediaFile.thumbnailUrl m))
      (Store.mediaFiles
         (store (snd (migrateMediaDataUrls saveAsLocal storeWithInlineData
                        (runtimeOf storeWithInlineData)))))
  = [("m1", Some "local-image://migrated/", None);
     ("m2", Some "local-image://shots/b.png", Some "local-image://migrated/x");
     ("m3", Some "blob:http://localhost/1", None);
     ("m4", Some "https://example.com/c.png", None);
     ("m5", Some "https://example.com/d.png", None)]
  /\ filter needsMigration
       (Store.mediaFiles
          (store (snd (migrateMediaDataUrls saveAsLocal storeWithInlineData
                         (runtimeOf storeWithInlineData)))))
     = [].
Proof.
  split; [reflexivity|].
  apply (migration_complete (runtimeOf storeWithInlineData) saveAsLocal_always).
Defined.

(** ** onRehydrateStorage *)

Lemma initSystemFolders_nothing
      (uuidAt : nat -> string) (nowAt : nat -> number) (r : Runtime) :
  missingCategories (Store.folders (store r)) SYSTEM_CATEGORIES = [] ->
  exec (initSystemFolders uuidAt nowAt) r = r.
Proof.
  intros H. rewrite initSystemFolders_eq, H. simpl. apply runtime_eta.
Qed.

Lemma onRehydrateStorage_eq
      (uuidAt : nat -> string) (nowAt : nat -> number)
      (save : nat -> string -> Settled string) (r : Runtime) :
  onRehydrateStorage uuidAt nowAt save r
  = migrateMediaDataUrls save (store r) (exec (initSystemFolders uuidAt nowAt) r).
Proof. reflexivity. Qed.

(** X23: the start-up fix-up is idempotent.  After [onRehydrateStorage], when
    the saves of the migration all resolved with a local path, every fixed
    category has a system folder and no item has a [data:] url or thumbnail,
    and a second [onRehydrateStorage] calls no save and changes nothing. *)
Theorem onRehydrateStorage_idempotent
        (uuidAt : nat -> string) (nowAt : nat -> number)
        (save : nat -> string -> Settled string) (r : Runtime) :
  alwaysSavesLocally save ->
  let r' := snd (onRehydrateStorage uuidAt nowAt save r) in
  (forall c, In c fixedCategories ->
             1 <= systemCount c (Store.folders (store r')))
  /\ filter needsMigration (Store.mediaFiles (store r')) = []
  /\ onRehydrateStorage uuidAt nowAt save r' = (0, r').
Proof.
  intros Hsave r'. unfold r'. rewrite onRehydrateStorage_eq.
  set (r1 := exec (initSystemFolders uuidAt nowAt) r).
  assert (Hfiles : Store.mediaFiles (store r) = Store.mediaFiles (store r1))
    by (symmetry; apply (initSystemFolders_rest uuidAt nowAt r)).
  destruct (migrateMediaDataUrls_only_urls_aux save (store r) r1)
    as (Hfolders & _).
  assert (Hclear := migration_clears (store r) r1 Hsave Hfiles).
  set (r2 := snd (migrateMediaDataUrls save (store r) r1)) in *.
  assert (Hmissing : missingCategories (Store.folders (store r2))
                       SYSTEM_CATEGORIES = []).
  { rewrite Hfolders. apply initSystemFolders_complete. }
  split; [|split].
  - intros c Hc. rewrite Hfolders.
    destruct (find (isSystemOf c) (Store.folders (store r1))) as [f|] eqn:E.
    + now apply systemCount_found in E.
    + exfalso. unfold fixedCategories in Hc. apply in_map_iff in Hc.
      destruct Hc as (cat & <- & Hcat).
      assert (Hin : In cat (missingCategories (Store.folders (store r1))
                              SYSTEM_CATEGORIES)).
      { apply filter_In. split; [exact Hcat|now rewrite E]. }
      unfold r1 in Hin. now rewrite initSystemFolders_complete in Hin.
  - exact Hclear.
  - rewrite onRehydrateStorage_eq.
    rewrite (initSystemFolders_nothing uuidAt nowAt _ Hmissing).
    now apply migration_nothing.
Qed.

Lemma onRehydrateStorage_idempotent_witness :
  fst (onRehydrateStorage sampleUuid sampleNow saveAsLocal
         (runtimeOf storeWithInlineData)) = 2
  /\ onRehydrateStorage sampleUuid sampleNow saveAsLocal
       (snd (onRehydrateStorage sampleUuid sampleNow saveAsLocal
               (runtimeOf storeWithInlineData)))
     = (0, snd (onRehydrateStorage sampleUuid sampleNow saveAsLocal
                  (runtimeOf storeWithInlineData))).
Proof.
  split; [reflexivity|].
  apply (@onRehydrateStorage_idempotent sampleUuid sampleNow saveAsLocal
           (runtimeOf storeWithInlineData) saveAsLocal_always).
Defined.

(** ** Loading, clearing, settled saves *)

(** X24: after a load that resolved, for a non-empty project id, every item
    of the store belongs to that project: a later [assignProjectToUnscoped]
    changes no item, and what is persisted of the items goes to the project's
    partition whole, none of it to the shared one. *)
Theorem loaded_items_scoped
        (r : Runtime) (p q : string) (mediaItems : list MediaFile.t) :
  p <> "" ->
  let r' := exec (loadProjectMedia_settle p (Resolved mediaItems)) r in
  let C := partialize (store r') in
  Store.mediaFiles (store (exec (assignProjectToUnscoped q) r'))
  = Store.mediaFiles (store r')
  /\ Persisted.mediaFiles (projectData (splitMediaData C p))
     = Persisted.mediaFiles C
  /\ Persisted.mediaFiles (sharedData (splitMediaData C q)) = [].
Proof.
  intros Hp r' C.
  assert (Hscoped : forall m, In m (Store.mediaFiles (store r')) ->
            MediaFile.projectId m = Some p).
  { intros m Hm. simpl in Hm. apply in_map_iff in Hm.
    now destruct Hm as (m0 & <- & _). }
  assert (Hpersisted : forall m, In m (Persisted.mediaFiles C) ->
            MediaFile.projectId m = Some p).
  { intros m Hm. unfold C in Hm. cbn [partialize Persisted.mediaFiles] in Hm.
    apply in_map_iff in Hm. destruct Hm as (m0 & <- & Hm0).
    apply filter_In in Hm0. destruct Hm0 as [Hm0 _].
    rewrite persistedItem_projectId. now apply Hscoped. }
  split; [|split].
  - cbn [exec assignProjectToUnscoped set snd store Store.mediaFiles].
    apply map_fixed. intros m Hm.
    now rewrite (Hscoped m Hm), (truthy_Some Hp).
  - cbn [splitMediaData projectData Persisted.mediaFiles].
    apply filter_id_when. intros m Hm. unfold isProjectFile.
    rewrite (Hpersisted m Hm). simpl. apply String.eqb_refl.
  - cbn [splitMediaData sharedData Persisted.mediaFiles].
    apply filter_nil_when. intros m Hm. unfold isSharedFile.
    now rewrite (Hpersisted m Hm), (truthy_Some Hp).
Qed.

Lemma loaded_items_scoped_witness :
  Store.mediaFiles
    (store (exec (loadProjectMedia_settle "p"
                    (Resolved [sampleFile "m7" None None;
                               sampleFile "m8" None (Some "q")]))
                 (runtimeOf storeWithTree)))
  = [sampleFile "m7" None (Some "p"); sampleFile "m8" None (Some "p")]
  /\ Persisted.mediaFiles
       (sharedData
          (splitMediaData
             (partialize
                (store (exec (loadProjectMedia_settle "p"
                                (Resolved [sampleFile "m7" None None;
                                           sampleFile "m8" None (Some "q")]))
                             (runtimeOf storeWithTree)))) "q"))
     = [].
Proof.
  split; [reflexivity|].
  apply (@loaded_items_scoped (runtimeOf storeWithTree) "p" "q"
           [sampleFile "m7" None None; sampleFile "m8" None (Some "q")]).
  discriminate.
Defined.

(** X25: [clearAllMedia] removes the system folders with everything else,
    and the next [initSystemFolders] makes them anew: afterwards the folders
    are exactly one system folder per fixed category, under ids drawn after
    the clearing, and there is no item and no current folder. *)
Theorem clearAllMedia_then_init
        (uuidAt : nat -> string) (nowAt : nat -> number) (r : Runtime) :
  let s' := store (exec (initSystemFolders uuidAt nowAt) (exec clearAllMedia r)) in
  Store.folders (store (exec clearAllMedia r)) = []
  /\ map (fun f => (MediaFolder.id f, MediaFolder.category f,
                    MediaFolder.isSystem f))
         (Store.folders s')
     = [(uuidAt (uuidCalls r), Some "ai-image", true);
        (uuidAt (S (uuidCalls r)), Some "ai-video", true);
        (uuidAt (S (S (uuidCalls r))), Some "upload", true)]
  /\ Store.mediaFiles s' = []
  /\ Store.currentFolderId s' = None
  /\ Store.isLoading s' = Store.isLoading (store r).
Proof.
  intros s'. split; [reflexivity|]. unfold s'.
  destruct (initSystemFolders_rest uuidAt nowAt (exec clearAllMedia r))
    as (Hfiles & Hcurrent & Hloading).
  rewrite initSystemFolders_folders, Hfiles, Hcurrent, Hloading.
  repeat split.
Qed.

Lemma applySave_again (e : SaveSettled) (l : list MediaFile.t) :
  applySave e (applySave e l) = applySave e l.
Proof.
  destruct e as [id url localPath|id thumbnailUrl thumbLocalPath|id];
    unfold applySave;
    try match goal with |- context [if ?b then _ else _] => destruct b end;
    trivial; rewrite map_map; apply map_ext; intros m;
    destruct (MediaFile.id m =? id) eqn:I; simpl; rewrite ?I; reflexivity.
Qed.

Lemma applySave_others (e : SaveSettled) (l : list MediaFile.t) :
  Forall2 (fun m m' => MediaFile.id m <> savedId e -> m' = m) l (applySave e l).
Proof.
  assert (Hsame : Forall2 (fun m m' => MediaFile.id m <> savedId e -> m' = m) l l).
  { induction l; constructor; auto. }
  destruct e as [id url localPath|id thumbnailUrl thumbLocalPath|id];
    unfold applySave;
    try match goal with |- context [if ?b then _ else _] => destruct b end;
    trivial; apply Forall2_map_self; intros m Hm; simpl in Hm;
    apply String.eqb_neq in Hm; now rewrite Hm.
Qed.

(** X26: a settled save is idempotent and local.  Applying the store update
    of a settled [saveImageToLocal] a second time changes nothing, and the
    update leaves every item whose id is not the task's as it is. *)
Theorem localSaveSettled_idempotent_local (e : SaveSettled) (r : Runtime) :
  exec (localSaveSettled e) (exec (localSaveSettled e) r)
  = exec (localSaveSettled e) r
  /\ Forall2 (fun m m' => MediaFile.id m <> savedId e -> m' = m)
             (Store.mediaFiles (store r))
             (Store.mediaFiles (store (exec (localSaveSettled e) r))).
Proof.
  unfold exec. rewrite !localSaveSettled_eq. cbn [snd store uuidCalls
    clockReads Store.mediaFiles Store.set_mediaFiles Store.folders
    Store.currentFolderId Store.isLoading].
  split; [now rewrite applySave_again|apply applySave_others].
Qed.
